(** * Verification of the cppmh metaheuristic solver core

    A shallow embedding of the parts of cppmh (and of the printemps
    [Memory]) that the specification talks about: the multi-dimensional
    array store, names of proxy elements, the memory of variable updates,
    the incumbent holder, the penalty-coefficient adaptation and the outer
    loop bookkeeping of [solver::solve], and the move evaluation kernel.

    Integers of the C++ code ([int]) are [Z] with 32-bit wrap-around where
    the code computes with them; doubles are modelled by exact rationals
    [Q] (or by [Z] where only integral values occur). *)

From Stdlib Require Import ZArith QArith Qminmax Qround Qabs Lia String Ascii.
From Stdlib Require Import Lqa.
From stdpp Require Import base list gmap strings.

Open Scope Z_scope.

(* ------------------------------------------------------------------ *)
(** ** 32-bit [int] arithmetic *)

Module Int32.

Definition INT_MAX : Z := 2 ^ 31 - 1.
Definition INT_MIN : Z := - 2 ^ 31.

(** Two's-complement wrap-around of a mathematical integer into [int]. *)
Definition wrap (z : Z) : Z := (z + 2 ^ 31) mod 2 ^ 32 - 2 ^ 31.

Definition mul (a b : Z) : Z := wrap (a * b).
Definition add (a b : Z) : Z := wrap (a + b).

End Int32.

(* ------------------------------------------------------------------ *)
(** ** Decimal printing: [std::to_string] and [printf("%<w>d")] *)

Module Decimal.

Definition digit_char (d : Z) : ascii := ascii_of_nat (48 + Z.to_nat d).

(** Digits of a non-negative number, most significant first, prepended to
    [acc]; [fuel] bounds the number of digits (20 covers every [int]). *)
Fixpoint dec_go (fuel : nat) (n : Z) (acc : string) : string :=
  match fuel with
  | O => acc
  | S f =>
      let acc' := String (digit_char (n mod 10)) acc in
      if n <? 10 then acc' else dec_go f (n / 10) acc'
  end.

(** [std::to_string(int)] *)
Definition to_string (z : Z) : string :=
  if z <? 0 then String "-" (dec_go 20 (- z) EmptyString)
  else dec_go 20 z EmptyString.

Fixpoint spaces (n : nat) : string :=
  match n with O => EmptyString | S n' => String " " (spaces n') end.

(** [utility::to_string(value, "%<width>d")], a [sprintf] with the
    conversion [%<width>d]: the decimal text right-justified in a field
    of [width] characters, padded on the left with spaces. *)
Definition format_d (width : nat) (z : Z) : string :=
  let s := to_string z in spaces (width - String.length s) ++ s.

(** Number of decimal digits of a nonnegative number. *)
Fixpoint ndigits (fuel : nat) (n : Z) : nat :=
  match fuel with
  | O => O
  | S f => if n <? 10 then 1%nat else S (ndigits f (n / 10))
  end.

End Decimal.

(* ------------------------------------------------------------------ *)
(** ** [AbstractMultiArray] (model/abstract_multi_array.h) *)

Module UInt64.

(** Conversion of a mathematical integer to [unsigned long]. *)
Definition wrap (z : Z) : Z := z mod 2 ^ 64.

End UInt64.

Module MultiArray.
Import Int32.

(** [std::partial_sum(first, last, d_first, std::multiplies<int>())]:
    the first output is the first element, every next output is the
    running product. *)
Fixpoint partial_from (acc : Z) (xs : list Z) : list Z :=
  match xs with
  | [] => []
  | y :: ys => let a := mul acc y in a :: partial_from a ys
  end.

Definition partial_sum_mul (xs : list Z) : list Z :=
  match xs with
  | [] => []
  | x :: xs' => x :: partial_from x xs'
  end.

(** [compute_strides]: [m_strides.at(d - 1) = 1] throws
    [std::out_of_range] when the shape is empty ([None]); then the
    products of [m_shape.rbegin() .. m_shape.rend() - 1] are written
    backwards from [m_strides.rbegin() + 1]. *)
Definition compute_strides (shape : list Z) : option (list Z) :=
  match shape with
  | [] => None
  | _ :: rest => Some (rev (1 :: partial_sum_mul (rev rest)))
  end.

(** [std::accumulate(shape.begin(), shape.end(), 1, std::multiplies<int>())] *)
Definition accumulate_mul (shape : list Z) : Z := fold_left mul shape 1.

(** [std::inner_product(a.begin(), a.end(), b.begin(), 0)] on [int]s. *)
Fixpoint inner_product (acc : Z) (xs ys : list Z) : Z :=
  match xs, ys with
  | x :: xs', y :: ys' => inner_product (add acc (mul x y)) xs' ys'
  | _, _ => acc
  end.

Definition flat_index (strides idx : list Z) : Z := inner_product 0 idx strides.

(** The loop of [multi_dimensional_index]: C++ [/] and [%] on [int]
    truncate, that is [Z.quot] and [Z.rem]. *)
Fixpoint md_index_loop (remain : Z) (strides : list Z) : list Z :=
  match strides with
  | [] => []
  | s :: ss => Z.quot remain s :: md_index_loop (Z.rem remain s) ss
  end.

Definition multi_dimensional_index (strides : list Z) (k : Z) : list Z :=
  md_index_loop k strides.

(** Mathematical (overflow-free) counterparts used in the proofs. *)
Fixpoint prod (xs : list Z) : Z :=
  match xs with [] => 1 | x :: xs' => x * prod xs' end.

Fixpoint suffix_strides (rest : list Z) : list Z :=
  match rest with
  | [] => [1]
  | x :: rest' => prod (x :: rest') :: suffix_strides rest'
  end.

Fixpoint prefix_products (acc : Z) (xs : list Z) : list Z :=
  acc :: match xs with [] => [] | x :: xs' => prefix_products (acc * x) xs' end.

Fixpoint inner_pure (acc : Z) (xs ys : list Z) : Z :=
  match xs, ys with
  | x :: xs', y :: ys' => inner_pure (acc + x * y) xs' ys'
  | _, _ => acc
  end.

(** [utility::max] of a non-empty vector. *)
Definition vector_max (xs : list Z) : Z :=
  match xs with [] => 0 | x :: xs' => fold_left Z.max xs' x end.

Record AbstractMultiArray := {
  id : Z;
  number_of_dimensions : nat;
  number_of_elements : Z;
  max_digits : nat;
  shape : list Z;
  strides : list Z
}.

(** The three constructors.  [m_number_of_elements] is a [size_t]
    assigned from an [int].  [None]: the constructor returns no array.
    Only an empty shape gives it: the shape constructor first evaluates
    [utility::max] on the empty vector (not part of the sources), and
    [compute_strides] would then throw [std::out_of_range]; [None]
    records only that no array is returned, not how the call fails. *)
Definition make_scalar (a_ID : Z) : option AbstractMultiArray :=
  match compute_strides [1] with
  | Some st => Some {| id := a_ID; number_of_dimensions := 1;
                       number_of_elements := 1; max_digits := 1;
                       shape := [1]; strides := st |}
  | None => None
  end.

Definition make_1d (a_ID a_NUMBER_OF_ELEMENTS : Z) : option AbstractMultiArray :=
  match compute_strides [a_NUMBER_OF_ELEMENTS] with
  | Some st => Some {| id := a_ID; number_of_dimensions := 1;
                       number_of_elements := UInt64.wrap a_NUMBER_OF_ELEMENTS;
                       max_digits :=
                         String.length (Decimal.to_string a_NUMBER_OF_ELEMENTS);
                       shape := [a_NUMBER_OF_ELEMENTS]; strides := st |}
  | None => None
  end.

Definition make (a_ID : Z) (a_SHAPE : list Z) : option AbstractMultiArray :=
  match compute_strides a_SHAPE with
  | Some st => Some {| id := a_ID;
                       number_of_dimensions := length a_SHAPE;
                       number_of_elements := UInt64.wrap (accumulate_mul a_SHAPE);
                       max_digits :=
                         String.length (Decimal.to_string (vector_max a_SHAPE));
                       shape := a_SHAPE; strides := st |}
  | None => None
  end.

(** An array built by one of the constructors. *)
Definition constructed (a : AbstractMultiArray) : Prop :=
  (exists i, make_scalar i = Some a) \/
  (exists i n, make_1d i n = Some a) \/
  (exists i sh, make i sh = Some a).

Definition flat_index_of (a : AbstractMultiArray) (idx : list Z) : Z :=
  flat_index (strides a) idx.

Definition multi_dimensional_index_of (a : AbstractMultiArray) (k : Z) : list Z :=
  multi_dimensional_index (strides a) k.

(** The loop of [indices_label] over the dimensions: each index printed
    with the format ["%" + to_string(m_max_digits) + "d"], separated by
    [", "] except after the last one. *)
Fixpoint label_loop (w : nat) (idx : list Z) : string :=
  match idx with
  | [] => EmptyString
  | [i] => Decimal.format_d w i
  | i :: idx' => Decimal.format_d w i ++ ", " ++ label_loop w idx'
  end.

Definition indices_label (a : AbstractMultiArray) (a_FLAT_INDEX : Z) : string :=
  if Z.eqb (number_of_elements a) 1 then EmptyString
  else "[" ++ label_loop (max_digits a)
                (multi_dimensional_index_of a a_FLAT_INDEX) ++ "]".

(** Modelled from the spec: [Model::setup_unique_name] (model/model.h is
    not part of the sources; the test [TestModel.setup_unique_name] and
    the spec fix its behaviour).  An element whose name was not set by the
    user (empty name) is named [base + indices_label(flat_index)]; a name
    set by the user is kept. *)
Definition unique_name (base : string) (a : AbstractMultiArray)
    (flat : Z) (current : string) : string :=
  match current with
  | EmptyString => base ++ indices_label a flat
  | _ => current
  end.

Definition setup_unique_name (base : string) (a : AbstractMultiArray)
    (names : list string) : list string :=
  imap (fun j nm => unique_name base a (Z.of_nat j) nm) names.

Definition pos_all (xs : list Z) : Prop := Forall (fun x => 0 < x) xs.

End MultiArray.


(* ------------------------------------------------------------------ *)
(** ** Moves (model/move.h) *)

Module MoveM.

(** A variable is referred to by its [(proxy_index, flat_index)] pair;
    an alteration is [(variable pointer, new value)]. *)
Record Alteration := {
  alt_proxy_index : nat;
  alt_flat_index : nat;
  alt_value : Z
}.

Definition alt_var (a : Alteration) : nat * nat :=
  (alt_proxy_index a, alt_flat_index a).

Record Move := {
  alterations : list Alteration;
  related_constraint_ptrs : list (nat * nat)
}.

(** A per-proxy table of values: [std::vector<ValueProxy<T>>], each
    proxy a flat vector. *)
Definition entry {A} (t : list (list A)) (p f : nat) : option A :=
  t !! p ≫= fun row => row !! f.

(** [t[p][f] = g(t[p][f])] *)
Definition update_entry {A} (g : A -> A) (p f : nat) (t : list (list A)) : list (list A) :=
  alter (alter g f) p t.

End MoveM.

(* ------------------------------------------------------------------ *)
(** ** [Memory] (printemps/solver/memory.h) *)

Module MemoryM.
Import MoveM.

Definition INITIAL_LAST_UPDATE_ITERATION : Z := -1000.

(** [m_total_update_counts] is a [long]; the [int] counters never
    overflow in the runs considered (signed overflow is undefined in C++),
    so all counters are mathematical integers. *)
Record Memory := {
  variable_names : list string;
  last_update_iterations : list (list Z);
  update_counts : list (list Z);
  total_update_counts : Z
}.

(** [setup(a_model)]: one proxy per variable proxy of the model, of the
    proxy's number of elements. *)
Definition setup (names : list string) (sizes : list nat) : Memory :=
  {| variable_names := names;
     last_update_iterations :=
       map (fun n => replicate n INITIAL_LAST_UPDATE_ITERATION) sizes;
     update_counts := map (fun n => replicate n 0) sizes;
     total_update_counts := 0 |}.

(** The body of the loop of [update(a_MOVE, a_ITERATION)]. *)
Definition update_alteration (a_ITERATION : Z) (m : Memory) (alt : Alteration) : Memory :=
  let p := alt_proxy_index alt in
  let f := alt_flat_index alt in
  {| variable_names := variable_names m;
     last_update_iterations :=
       update_entry (fun _ => a_ITERATION) p f (last_update_iterations m);
     update_counts := update_entry (Z.add 1) p f (update_counts m);
     total_update_counts := total_update_counts m + 1 |}.

Definition update (a_MOVE : Move) (a_ITERATION : Z) (m : Memory) : Memory :=
  fold_left (update_alteration a_ITERATION) (alterations a_MOVE) m.

(** [bias()]: the sum over the first [m_variable_names.size()] proxies of
    the squared frequencies [update_count / (double) total]. *)
Definition bias (m : Memory) : Q :=
  let T := inject_Z (total_update_counts m) in
  fold_left
    (fun (result : Q) (row : list Z) =>
       fold_left (fun (result : Q) (c : Z) =>
                    let frequency := (inject_Z c / T)%Q in
                    (result + frequency * frequency)%Q) row result)
    (take (length (variable_names m)) (update_counts m)) 0%Q.

(** Memories a solve can hold: [setup] followed by updates with moves
    whose alterations refer to existing variables. *)
Definition valid_alteration (m : Memory) (alt : Alteration) : Prop :=
  is_Some (entry (update_counts m) (alt_proxy_index alt) (alt_flat_index alt)) /\
  is_Some (entry (last_update_iterations m) (alt_proxy_index alt) (alt_flat_index alt)).

Inductive reachable : Memory -> Prop :=
  | reachable_setup names sizes :
      length names = length sizes -> reachable (setup names sizes)
  | reachable_update m mv it :
      reachable m -> Forall (valid_alteration m) (alterations mv) ->
      reachable (update mv it m).

(** Number of alterations of a move on the variable [(p, f)]. *)
Definition occurrences (p f : nat) (alts : list Alteration) : nat :=
  length (filter (fun a => alt_var a = (p, f)) alts).

(** Number of variable entries. *)
Definition number_of_entries (m : Memory) : nat := length (concat (update_counts m)).

(** Sums over the update counts, and the invariant of the memories a
    solve can hold. *)
Definition Zsum (l : list Z) : Z := fold_right Z.add 0 l.
Definition sqsum (l : list Z) : Z := Zsum (map (fun c => c * c) l).

Definition inv (m : Memory) : Prop :=
  length (variable_names m) = length (update_counts m) /\
  Zsum (concat (update_counts m)) = total_update_counts m /\
  Forall (fun c => 0 <= c) (concat (update_counts m)).

End MemoryM.

(* ------------------------------------------------------------------ *)
(** ** Incumbent holder (solver/incumbent_holder.h) *)

Module Incumbent.

(** The doubles compared by [try_update_incumbent]: finite values, the
    [HUGE_VALF] default (positive infinity) and NaN, with the IEEE
    ordering (every comparison with NaN is false). *)
Inductive double := Fin (q : Q) | PosInf | NaN.

Definition double_lt (a b : double) : bool :=
  match a, b with
  | Fin x, Fin y => negb (Qle_bool y x)
  | Fin _, PosInf => true
  | _, _ => false
  end.

Definition is_finite (d : double) : bool :=
  match d with Fin _ => true | _ => false end.

(** [a <= b] between stored objectives: equal, or strictly smaller. *)
Definition double_le (a b : double) : Prop := a = b \/ double_lt a b = true.

Definition DEFAULT_FOUND_FEASIBLE_SOLUTION : bool := false.
Definition DEFAULT_OBJECTIVE : double := PosInf.
Definition STATUS_NO_UPDATED : Z := 0.
Definition STATUS_LOCAL_AUGMENTED_INCUMBENT_UPDATE : Z := 1.
Definition STATUS_GLOBAL_AUGMENTED_INCUMBENT_UPDATE : Z := 2.
Definition STATUS_FEASIBLE_INCUMBENT_UPDATE : Z := 4.

(** The fields of [model::SolutionScore] read by the holder. *)
Record SolutionScore := {
  objective : double;
  local_augmented_objective : double;
  global_augmented_objective : double;
  is_feasible : bool }.

Section Holder.

Variable Solution : Type.

Record IncumbentHolder := {
  m_found_feasible_solution : bool;
  m_local_augmented_incumbent_solution : Solution;
  m_global_augmented_incumbent_solution : Solution;
  m_feasible_incumbent_solution : Solution;
  m_local_augmented_incumbent_objective : double;
  m_global_augmented_incumbent_objective : double;
  m_feasible_incumbent_objective : double;
  m_local_augmented_incumbent_score : SolutionScore;
  m_global_augmented_incumbent_score : SolutionScore;
  m_feasible_incumbent_score : SolutionScore }.

(** [initialize()]: the solutions and scores are left as they are. *)
Definition initialize (h : IncumbentHolder) : IncumbentHolder :=
  {| m_found_feasible_solution := DEFAULT_FOUND_FEASIBLE_SOLUTION;
     m_local_augmented_incumbent_solution := m_local_augmented_incumbent_solution h;
     m_global_augmented_incumbent_solution := m_global_augmented_incumbent_solution h;
     m_feasible_incumbent_solution := m_feasible_incumbent_solution h;
     m_local_augmented_incumbent_objective := DEFAULT_OBJECTIVE;
     m_global_augmented_incumbent_objective := DEFAULT_OBJECTIVE;
     m_feasible_incumbent_objective := DEFAULT_OBJECTIVE;
     m_local_augmented_incumbent_score := m_local_augmented_incumbent_score h;
     m_global_augmented_incumbent_score := m_global_augmented_incumbent_score h;
     m_feasible_incumbent_score := m_feasible_incumbent_score h |}.

Definition set_local (h : IncumbentHolder) (s : Solution) (sc : SolutionScore) :=
  {| m_found_feasible_solution := m_found_feasible_solution h;
     m_local_augmented_incumbent_solution := s;
     m_global_augmented_incumbent_solution := m_global_augmented_incumbent_solution h;
     m_feasible_incumbent_solution := m_feasible_incumbent_solution h;
     m_local_augmented_incumbent_objective := local_augmented_objective sc;
     m_global_augmented_incumbent_objective := m_global_augmented_incumbent_objective h;
     m_feasible_incumbent_objective := m_feasible_incumbent_objective h;
     m_local_augmented_incumbent_score := sc;
     m_global_augmented_incumbent_score := m_global_augmented_incumbent_score h;
     m_feasible_incumbent_score := m_feasible_incumbent_score h |}.

Definition set_global (h : IncumbentHolder) (s : Solution) (sc : SolutionScore) :=
  {| m_found_feasible_solution := m_found_feasible_solution h;
     m_local_augmented_incumbent_solution := m_local_augmented_incumbent_solution h;
     m_global_augmented_incumbent_solution := s;
     m_feasible_incumbent_solution := m_feasible_incumbent_solution h;
     m_local_augmented_incumbent_objective := m_local_augmented_incumbent_objective h;
     m_global_augmented_incumbent_objective := global_augmented_objective sc;
     m_feasible_incumbent_objective := m_feasible_incumbent_objective h;
     m_local_augmented_incumbent_score := m_local_augmented_incumbent_score h;
     m_global_augmented_incumbent_score := sc;
     m_feasible_incumbent_score := m_feasible_incumbent_score h |}.

Definition set_found (h : IncumbentHolder) :=
  {| m_found_feasible_solution := true;
     m_local_augmented_incumbent_solution := m_local_augmented_incumbent_solution h;
     m_global_augmented_incumbent_solution := m_global_augmented_incumbent_solution h;
     m_feasible_incumbent_solution := m_feasible_incumbent_solution h;
     m_local_augmented_incumbent_objective := m_local_augmented_incumbent_objective h;
     m_global_augmented_incumbent_objective := m_global_augmented_incumbent_objective h;
     m_feasible_incumbent_objective := m_feasible_incumbent_objective h;
     m_local_augmented_incumbent_score := m_local_augmented_incumbent_score h;
     m_global_augmented_incumbent_score := m_global_augmented_incumbent_score h;
     m_feasible_incumbent_score := m_feasible_incumbent_score h |}.

Definition set_feasible (h : IncumbentHolder) (s : Solution) (sc : SolutionScore) :=
  {| m_found_feasible_solution := m_found_feasible_solution h;
     m_local_augmented_incumbent_solution := m_local_augmented_incumbent_solution h;
     m_global_augmented_incumbent_solution := m_global_augmented_incumbent_solution h;
     m_feasible_incumbent_solution := s;
     m_local_augmented_incumbent_objective := m_local_augmented_incumbent_objective h;
     m_global_augmented_incumbent_objective := m_global_augmented_incumbent_objective h;
     m_feasible_incumbent_objective := objective sc;
     m_local_augmented_incumbent_score := m_local_augmented_incumbent_score h;
     m_global_augmented_incumbent_score := m_global_augmented_incumbent_score h;
     m_feasible_incumbent_score := sc |}.

(** [try_update_incumbent(a_SOLUTION, a_SCORE)]: returns the status and
    the updated holder. *)
Definition try_update_incumbent (h : IncumbentHolder) (a_SOLUTION : Solution)
    (a_SCORE : SolutionScore) : Z * IncumbentHolder :=
  let status := STATUS_NO_UPDATED in
  let '(status, h) :=
    if double_lt (local_augmented_objective a_SCORE) (m_local_augmented_incumbent_objective h)
    then (status + STATUS_LOCAL_AUGMENTED_INCUMBENT_UPDATE, set_local h a_SOLUTION a_SCORE)
    else (status, h) in
  let '(status, h) :=
    if double_lt (global_augmented_objective a_SCORE) (m_global_augmented_incumbent_objective h)
    then (status + STATUS_GLOBAL_AUGMENTED_INCUMBENT_UPDATE, set_global h a_SOLUTION a_SCORE)
    else (status, h) in
  if is_feasible a_SCORE then
    let h := set_found h in
    if double_lt (objective a_SCORE) (m_feasible_incumbent_objective h)
    then (status + STATUS_FEASIBLE_INCUMBENT_UPDATE, set_feasible h a_SOLUTION a_SCORE)
    else (status, h)
  else (status, h).

Definition found_feasible_solution (h : IncumbentHolder) : bool := m_found_feasible_solution h.
Definition global_augmented_incumbent_objective (h : IncumbentHolder) : double :=
  m_global_augmented_incumbent_objective h.
Definition feasible_incumbent_objective (h : IncumbentHolder) : double :=
  m_feasible_incumbent_objective h.
Definition local_augmented_incumbent_objective (h : IncumbentHolder) : double :=
  m_local_augmented_incumbent_objective h.
Definition global_augmented_incumbent_solution (h : IncumbentHolder) : Solution :=
  m_global_augmented_incumbent_solution h.
Definition feasible_incumbent_solution (h : IncumbentHolder) : Solution :=
  m_feasible_incumbent_solution h.

Definition try_update_step (h : IncumbentHolder) (p : Solution * SolutionScore) : IncumbentHolder :=
  snd (try_update_incumbent h (fst p) (snd p)).

(** The holder after a sequence of [try_update_incumbent] calls, and the
    list of all holders seen along the sequence. *)
Definition run (h : IncumbentHolder) (xs : list (Solution * SolutionScore)) : IncumbentHolder :=
  fold_left try_update_step xs h.

Fixpoint states (h : IncumbentHolder) (xs : list (Solution * SolutionScore))
    : list IncumbentHolder :=
  match xs with
  | [] => [h]
  | p :: xs' => h :: states (try_update_step h p) xs'
  end.

(** End of [solver::solve]: the incumbent is chosen from the holder, its
    variable values are imported into the model, the model is updated
    and the solution is exported again; [refresh] stands for that
    import/update/export round trip of the model. *)
Definition export_incumbent (refresh : Solution -> Solution) (h : IncumbentHolder) : Solution :=
  let incumbent :=
    if found_feasible_solution h then feasible_incumbent_solution h
    else global_augmented_incumbent_solution h in
  refresh incumbent.

(** Invariant of the holder after the calls with the pairs [seen] when
    every presented objective is finite. *)
Definition holder_inv (h : IncumbentHolder) (seen : list (Solution * SolutionScore)) : Prop :=
  m_found_feasible_solution h = existsb (fun p => is_feasible (snd p)) seen /\
  (m_found_feasible_solution h = true -> is_finite (m_feasible_incumbent_objective h) = true) /\
  (is_finite (m_feasible_incumbent_objective h) = true ->
     exists p, p ∈ seen /\ is_feasible (snd p) = true /\ m_feasible_incumbent_solution h = fst p) /\
  (is_finite (m_global_augmented_incumbent_objective h) = true ->
     exists p, p ∈ seen /\ m_global_augmented_incumbent_solution h = fst p) /\
  (seen <> [] -> is_finite (m_global_augmented_incumbent_objective h) = true) /\
  m_feasible_incumbent_objective h <> NaN /\
  m_global_augmented_incumbent_objective h <> NaN.

Definition finite_score (p : Solution * SolutionScore) : Prop :=
  is_finite (objective (snd p)) = true /\ is_finite (global_augmented_objective (snd p)) = true.

End Holder.

Arguments m_found_feasible_solution {Solution}.
Arguments m_local_augmented_incumbent_solution {Solution}.
Arguments m_global_augmented_incumbent_solution {Solution}.
Arguments m_feasible_incumbent_solution {Solution}.
Arguments m_local_augmented_incumbent_objective {Solution}.
Arguments m_global_augmented_incumbent_objective {Solution}.
Arguments m_feasible_incumbent_objective {Solution}.
Arguments m_local_augmented_incumbent_score {Solution}.
Arguments m_global_augmented_incumbent_score {Solution}.
Arguments m_feasible_incumbent_score {Solution}.
Arguments Build_IncumbentHolder {Solution}.
Arguments finite_score {Solution}.
Arguments holder_inv {Solution}.

Arguments initialize {Solution}.
Arguments try_update_incumbent {Solution}.
Arguments try_update_step {Solution}.
Arguments run {Solution}.
Arguments states {Solution}.
Arguments export_incumbent {Solution}.
Arguments found_feasible_solution {Solution}.
Arguments global_augmented_incumbent_objective {Solution}.
Arguments feasible_incumbent_objective {Solution}.
Arguments local_augmented_incumbent_objective {Solution}.
Arguments global_augmented_incumbent_solution {Solution}.
Arguments feasible_incumbent_solution {Solution}.

(** Sample data. *)
Definition sample_score (o g : Z) (feasible : bool) : SolutionScore :=
  {| objective := Fin (inject_Z o); local_augmented_objective := Fin (inject_Z g);
     global_augmented_objective := Fin (inject_Z g); is_feasible := feasible |}.

Definition sample_holder : IncumbentHolder nat :=
  {| m_found_feasible_solution := false;
     m_local_augmented_incumbent_solution := 0%nat;
     m_global_augmented_incumbent_solution := 0%nat;
     m_feasible_incumbent_solution := 0%nat;
     m_local_augmented_incumbent_objective := PosInf;
     m_global_augmented_incumbent_objective := PosInf;
     m_feasible_incumbent_objective := PosInf;
     m_local_augmented_incumbent_score := sample_score 0 0 false;
     m_global_augmented_incumbent_score := sample_score 0 0 false;
     m_feasible_incumbent_score := sample_score 0 0 false |}.

Definition sample_calls : list (nat * SolutionScore) :=
  [(1%nat, sample_score 5 9 false); (2%nat, sample_score 4 4 true);
   (3%nat, sample_score 1 7 false)].

End Incumbent.


(* ------------------------------------------------------------------ *)
(** ** The outer loop of [solver::solve]: stagnation counter and
       local penalty coefficients (solver/solver.h) *)

Module SolverLoop.

Definition STATUS_GLOBAL_AUGMENTED_INCUMBENT_UPDATE : Z := 2.

(** The update of [not_update_count] and of
    [penalty_coefficient_reset_flag] after the tabu search of a loop.
    The condition is written with the logical [&&] of the source: an
    [int] operand is true when it is nonzero. *)
Definition update_not_update_count (threshold update_status not_update_count : Z)
    : Z * bool :=
  if negb (update_status =? 0) && negb (STATUS_GLOBAL_AUGMENTED_INCUMBENT_UPDATE =? 0)
  then (0, false)
  else
    let not_update_count := not_update_count + 1 in
    if not_update_count =? threshold then (0, true)
    else (not_update_count, false).

Record PenaltyOption := {
  initial_penalty_coefficient : Q;
  penalty_coefficient_tightening_rate : Q;
  penalty_coefficient_relaxing_rate : Q;
  penalty_coefficient_updating_balance : Q;
  is_enabled_grouping_penalty_coefficient : bool }.

Definition Qltb (a b : Q) : bool := negb (Qle_bool b a).

(** [total_penalty] and [total_squared_violation]: sums over all
    violation values of the local incumbent. *)
Definition violation_totals (violations : list (list Q)) : Q * Q :=
  fold_left
    (fun acc row =>
       fold_left (fun '(total_penalty, total_squared_violation) element =>
                    (total_penalty + element,
                     total_squared_violation + element * element)%Q) row acc)
    violations (0%Q, 0%Q).

Section Penalty.

(** [utility::max] of a vector of doubles. *)
Variable utility_max : list Q -> Q.
Variable master_option : PenaltyOption.
Variable EPSILON : Q.

(** Tightening of one proxy of local penalty coefficients. *)
Definition tighten_proxy (gap total_penalty total_squared_violation : Q)
    (violation_values : list Q) (proxy : list Q) : list Q :=
  let balance := penalty_coefficient_updating_balance master_option in
  let raised :=
    imap (fun flat_index element =>
            let delta_penalty_constant := (Qmax 0 gap / total_penalty)%Q in
            let delta_penalty_proportional :=
              (Qmax 0 gap / total_squared_violation * nth flat_index violation_values 0%Q)%Q in
            (element + penalty_coefficient_tightening_rate master_option *
                         (balance * delta_penalty_constant +
                          (1 - balance) * delta_penalty_proportional))%Q)
         proxy in
  let grouped :=
    if is_enabled_grouping_penalty_coefficient master_option
    then map (fun _ => utility_max raised) raised
    else raised in
  map (fun element => Qmin element (initial_penalty_coefficient master_option)) grouped.

(** Relaxing of one proxy: coefficients of satisfied constraints are
    multiplied by the relaxing rate. *)
Definition relax_proxy (violation_values : list Q) (proxy : list Q) : list Q :=
  imap (fun flat_index element =>
          if Qltb (nth flat_index violation_values 0%Q) EPSILON
          then (element * penalty_coefficient_relaxing_rate master_option)%Q
          else element)
       proxy.

(** The update of [local_penalty_coefficient_proxies] at the end of a
    loop.  The penalty proxies are generated one per constraint proxy,
    in order, so [proxy.id()] is the position of the proxy. *)
Definition update_local_penalty_coefficients (penalty_coefficient_reset_flag : bool)
    (gap : Q) (local_is_feasible : bool) (violations : list (list Q))
    (local global : list (list Q)) : list (list Q) :=
  if penalty_coefficient_reset_flag then global
  else if Qltb EPSILON gap && negb local_is_feasible then
    let '(total_penalty, total_squared_violation) := violation_totals violations in
    imap (fun id proxy =>
            tighten_proxy gap total_penalty total_squared_violation
                          (nth id violations []) proxy) local
  else
    imap (fun id proxy => relax_proxy (nth id violations []) proxy) local.

End Penalty.

Definition Qsum (l : list Q) : Q := fold_right Qplus 0%Q l.

Definition sample_option : PenaltyOption :=
  {| initial_penalty_coefficient := 1; penalty_coefficient_tightening_rate := 1;
     penalty_coefficient_relaxing_rate := 1 # 2; penalty_coefficient_updating_balance := 1;
     is_enabled_grouping_penalty_coefficient := false |}.

End SolverLoop.


(* ------------------------------------------------------------------ *)
(** ** Entry of [solver::solve] (solver/solver.h) *)

Module SolveEntry.

(** A model: its [is_solved] flag and the rest of its state. *)
Record Model (Body : Type) := { is_solved : bool; body : Body }.
Arguments is_solved {Body}.
Arguments body {Body}.
Arguments Build_Model {Body}.

Inductive SolveError := AlreadySolved | SearchError (message : string).

(** [solve(model, option)]: the [logic_error] on a solved model, otherwise
    the flag is set and the search runs.  [search] is the rest of the
    function: it sees the model and yields the new body of the model
    (the search never writes [is_solved]) and a result or an error. *)
Definition solve {Body Result : Type}
    (search : Model Body -> Body * (SolveError + Result)) (a_model : Model Body)
    : Model Body * (SolveError + Result) :=
  if is_solved a_model then (a_model, inl AlreadySolved)
  else
    let a_model := Build_Model true (body a_model) in
    let '(b, r) := search a_model in
    (Build_Model (is_solved a_model) b, r).

End SolveEntry.


(* ------------------------------------------------------------------ *)
(** ** Move evaluation (model/model.h) *)

(** Modelled from the spec: [Model::evaluate] (section 4.3) is not part of
    the sources.  A linear model over integer data: variables are values
    indexed by number, expressions and constraints are sparse maps of
    coefficients with a constant, penalty weights are indexed by
    constraint.  The model is taken in its updated state: each cached
    constraint, violation and objective value is the value of its
    expression at the current assignment. *)
Module Evaluation.

(** The model of the evaluation tests, [Model<int, double>]: variable
    values are [int]s, coefficients, constants and penalty weights are
    [double]s, read as exact rationals. *)
Inductive ConstraintSense := LessEqual | Equal | GreaterEqual.

Record Constraint := {
  coefficients : list (nat * Q);
  constant_term : Q;
  sense : ConstraintSense;
  is_enabled : bool }.

Record Model := {
  variable_values : list Z;
  objective_coefficients : list (nat * Q);
  objective_constant : Q;
  constraints : list Constraint }.

Record Move := {
  alterations : list (nat * Z);
  related_constraints : list nat }.

Definition empty_move : Move := {| alterations := []; related_constraints := [] |}.

Record SolutionScore := {
  objective : Q;
  total_violation : Q;
  local_penalty : Q;
  global_penalty : Q;
  local_augmented_objective : Q;
  global_augmented_objective : Q;
  is_feasible : bool;
  is_objective_improvable : bool;
  is_constraint_improvable : bool }.

Definition sum_Q (l : list Q) : Q := fold_right Qplus 0%Q l.

(** [a < b] on doubles. *)
Definition Qltb (a b : Q) : bool := negb (Qle_bool b a).

Definition value_of (x : list Z) (v : nat) : Z := default 0%Z (x !! v).

Definition expression_value (cs : list (nat * Q)) (c : Q) (x : list Z) : Q :=
  fold_right (fun '(v, a) acc => (a * inject_Z (value_of x v) + acc)%Q) c cs.

(** The coefficient of variable [v] of an expression. *)
Definition sensitivity (cs : list (nat * Q)) (v : nat) : Q :=
  fold_right (fun '(w, a) acc => if Nat.eqb w v then (a + acc)%Q else acc) 0%Q cs.

Definition violation (s : ConstraintSense) (value : Q) : Q :=
  match s with
  | LessEqual => Qmax 0 value
  | Equal => Qabs value
  | GreaterEqual => Qmax 0 (- value)
  end.

Definition apply_alterations (x : list Z) (alts : list (nat * Z)) : list Z :=
  fold_left (fun x '(v, value) => <[v := value]> x) alts x.

Definition weight (w : list Q) (g : nat) : Q := default 0%Q (w !! g).

Definition constraint_value (m : Model) (c : Constraint) : Q :=
  expression_value (coefficients c) (constant_term c) (variable_values m).

Definition violation_value (m : Model) (c : Constraint) : Q :=
  violation (sense c) (constraint_value m c).

Definition objective_value (m : Model) : Q :=
  expression_value (objective_coefficients m) (objective_constant m) (variable_values m).

(** The term of constraint [g] in a sum over constraints: zero for a
    disabled constraint. *)
Definition enabled_term (m : Model) (f : nat -> Constraint -> Q) (g : nat) : Q :=
  match constraints m !! g with
  | Some c => if is_enabled c then f g c else 0%Q
  | None => 0%Q
  end.

Definition enabled_test (m : Model) (f : Constraint -> bool) (g : nat) : bool :=
  match constraints m !! g with
  | Some c => is_enabled c && f c
  | None => false
  end.

(** Full form [evaluate(move, local, global)]: the assignment after the
    move, every constraint evaluated on it. *)
Definition evaluate_full (m : Model) (mv : Move) (local global : list Q) : SolutionScore :=
  let x := apply_alterations (variable_values m) (alterations mv) in
  let new_violation c := violation (sense c) (expression_value (coefficients c) (constant_term c) x) in
  let indices := seq 0 (length (constraints m)) in
  let objective := expression_value (objective_coefficients m) (objective_constant m) x in
  let total_violation := sum_Q (map (enabled_term m (fun _ c => new_violation c)) indices) in
  let local_penalty :=
    sum_Q (map (enabled_term m (fun g c => weight local g * new_violation c)%Q) indices) in
  let global_penalty :=
    sum_Q (map (enabled_term m (fun g c => weight global g * new_violation c)%Q) indices) in
  {| objective := objective;
     total_violation := total_violation;
     local_penalty := local_penalty;
     global_penalty := global_penalty;
     local_augmented_objective := (objective + local_penalty)%Q;
     global_augmented_objective := (objective + global_penalty)%Q;
     is_feasible := Qeq_bool total_violation 0;
     is_objective_improvable := Qltb objective (objective_value m);
     is_constraint_improvable :=
       existsb (enabled_test m (fun c => Qltb (new_violation c) (violation_value m c))) indices |}.

(** The change of an expression's value by the alterations of a move. *)
Definition expression_delta (m : Model) (cs : list (nat * Q)) (alts : list (nat * Z)) : Q :=
  sum_Q (map (fun '(v, value) =>
                (inject_Z (value - value_of (variable_values m) v) * sensitivity cs v)%Q) alts).

(** Delta form [evaluate(move, score_before, local, global)]: only the
    related constraints are evaluated, from their cached values. *)
Definition evaluate_delta (m : Model) (mv : Move) (score_before : SolutionScore)
    (local global : list Q) : SolutionScore :=
  let alts := alterations mv in
  let new_violation c :=
    violation (sense c) (constraint_value m c + expression_delta m (coefficients c) alts)%Q in
  let related := related_constraints mv in
  let objective' :=
    (objective score_before + expression_delta m (objective_coefficients m) alts)%Q in
  let total_violation' :=
    (total_violation score_before
     + sum_Q (map (enabled_term m (fun _ c => new_violation c - violation_value m c)%Q)
                  related))%Q in
  let local_penalty' :=
    (local_penalty score_before
     + sum_Q (map (enabled_term m (fun g c =>
                     weight local g * (new_violation c - violation_value m c))%Q) related))%Q in
  let global_penalty' :=
    (global_penalty score_before
     + sum_Q (map (enabled_term m (fun g c =>
                     weight global g * (new_violation c - violation_value m c))%Q) related))%Q in
  {| objective := objective';
     total_violation := total_violation';
     local_penalty := local_penalty';
     global_penalty := global_penalty';
     local_augmented_objective := (objective' + local_penalty')%Q;
     global_augmented_objective := (objective' + global_penalty')%Q;
     is_feasible := Qeq_bool total_violation' 0;
     is_objective_improvable := Qltb objective' (objective score_before);
     is_constraint_improvable :=
       existsb (enabled_test m (fun c => Qltb (new_violation c) (violation_value m c))) related |}.

(** Field-wise equality of two scores: the numbers as rationals, the
    flags as booleans. *)
Definition score_equiv (s1 s2 : SolutionScore) : Prop :=
  (objective s1 == objective s2)%Q /\
  (total_violation s1 == total_violation s2)%Q /\
  (local_penalty s1 == local_penalty s2)%Q /\
  (global_penalty s1 == global_penalty s2)%Q /\
  (local_augmented_objective s1 == local_augmented_objective s2)%Q /\
  (global_augmented_objective s1 == global_augmented_objective s2)%Q /\
  is_feasible s1 = is_feasible s2 /\
  is_objective_improvable s1 = is_objective_improvable s2 /\
  is_constraint_improvable s1 = is_constraint_improvable s2.

(** A valid move: distinct altered variables of the model, distinct related
    constraints of the model, and every constraint with an altered
    variable among its terms is related. *)
Definition valid_move (m : Model) (mv : Move) : Prop :=
  NoDup (map fst (alterations mv)) /\
  Forall (fun v => (v < length (variable_values m))%nat) (map fst (alterations mv)) /\
  NoDup (related_constraints mv) /\
  Forall (fun g => (g < length (constraints m))%nat) (related_constraints mv) /\
  (forall g c, constraints m !! g = Some c ->
     (exists v, v ∈ map fst (alterations mv) /\ v ∈ map fst (coefficients c)) ->
     g ∈ related_constraints mv).

(** The scenario of the evaluation tests: [x0 = x1 = 1], objective
    [x0 + x1], constraints [x0 + x1 - 1 <= 0] and [x0 - x1 = 0], and the
    move setting both variables to zero. *)
Definition sample_model : Model :=
  {| variable_values := [1; 1];
     objective_coefficients := [(0%nat, 1%Q); (1%nat, 1%Q)];
     objective_constant := 0%Q;
     constraints :=
       [{| coefficients := [(0%nat, 1%Q); (1%nat, 1%Q)]; constant_term := (-1)%Q;
           sense := LessEqual; is_enabled := true |};
        {| coefficients := [(0%nat, 1%Q); (1%nat, (-1)%Q)]; constant_term := 0%Q;
           sense := Equal; is_enabled := true |}] |}.

Definition sample_move : Move :=
  {| alterations := [(0%nat, 0); (1%nat, 0)]; related_constraints := [0%nat; 1%nat] |}.

End Evaluation.

(* ------------------------------------------------------------------ *)
(** ** [unsigned long] arithmetic (64 bits on LP64) *)


(* ------------------------------------------------------------------ *)
(** ** Reading back decimal text *)

Module DecimalRead.

(** The value of a string of decimal digits, read from the left into
    [acc]. *)
Fixpoint digits_value (s : string) (acc : Z) : Z :=
  match s with
  | EmptyString => acc
  | String c s' => digits_value s' (acc * 10 + (Z.of_nat (nat_of_ascii c) - 48))
  end.

(** The text begins with a space. *)
Definition starts_with_space (s : string) : Prop :=
  match s with String c _ => c = " "%char | EmptyString => False end.

End DecimalRead.

(* ------------------------------------------------------------------ *)
(** ** More of [AbstractMultiArray] (model/abstract_multi_array.h) *)

Module MultiArrayExt.
Import MultiArray.

(** The loop of [update_multi_dimensional_index(a_multi_dimensional_index,
    a_FLAT_INDEX)]: the same divisions as [multi_dimensional_index], each
    quotient written into the given vector at position [i]. *)
Fixpoint update_md_loop (i : nat) (remain : Z) (strides : list Z) (v : list Z) : list Z :=
  match strides with
  | [] => v
  | s :: ss => update_md_loop (S i) (Z.rem remain s) ss (<[i := Z.quot remain s]> v)
  end.

Definition update_multi_dimensional_index (a : AbstractMultiArray)
    (a_multi_dimensional_index : list Z) (a_FLAT_INDEX : Z) : list Z :=
  update_md_loop 0 a_FLAT_INDEX (strides a) a_multi_dimensional_index.

End MultiArrayExt.

(* ------------------------------------------------------------------ *)
(** ** More of [Memory] (printemps/solver/memory.h) *)

Module MemoryExt.
Import MoveM MemoryM.

(** [randomness], the output [r] of the generator taken modulo
    [2 * a_RANDOM_WIDTH], minus [a_RANDOM_WIDTH]: the output [r] of [std::mt19937] is a [uint_fast32_t], an
    [unsigned long]: both [int] operands are converted to it, the
    subtraction wraps modulo 2^64 and the initialisation of the [int]
    takes the result modulo 2^32. *)
Definition randomness (r a_RANDOM_WIDTH : Z) : Z :=
  Int32.wrap (UInt64.wrap (r mod UInt64.wrap (2 * a_RANDOM_WIDTH)
                           - UInt64.wrap a_RANDOM_WIDTH)).

(** The body of the loop of [update(a_MOVE, a_ITERATION, a_RANDOM_WIDTH,
    get_rand_mt)].  The generator is its sequence of outputs [rand 0,
    rand 1, ...] and the number of outputs drawn so far.  The new last
    update iteration [a_ITERATION + randomness] is an [int] sum. *)
Definition update_alteration_random (a_ITERATION a_RANDOM_WIDTH : Z) (rand : nat -> Z)
    (s : Memory * nat) (alt : Alteration) : Memory * nat :=
  let '(m, n) := s in
  let p := alt_proxy_index alt in
  let f := alt_flat_index alt in
  let rnd := randomness (rand n) a_RANDOM_WIDTH in
  ({| variable_names := variable_names m;
      last_update_iterations :=
        update_entry (fun _ => Int32.add a_ITERATION rnd) p f (last_update_iterations m);
      update_counts := update_entry (Z.add 1) p f (update_counts m);
      total_update_counts := total_update_counts m + 1 |}, S n).

Definition update_random (a_MOVE : Move) (a_ITERATION a_RANDOM_WIDTH : Z)
    (rand : nat -> Z) (s : Memory * nat) : Memory * nat :=
  if a_RANDOM_WIDTH =? 0 then (update a_MOVE a_ITERATION (fst s), snd s)
  else fold_left (update_alteration_random a_ITERATION a_RANDOM_WIDTH rand)
         (alterations a_MOVE) s.

(** [reset_last_update_iterations()] *)
Definition reset_last_update_iterations (m : Memory) : Memory :=
  {| variable_names := variable_names m;
     last_update_iterations :=
       map (map (fun _ => INITIAL_LAST_UPDATE_ITERATION)) (last_update_iterations m);
     update_counts := update_counts m;
     total_update_counts := total_update_counts m |}.

End MemoryExt.

(* ------------------------------------------------------------------ *)
(** ** More of the incumbent holder (solver/incumbent_holder.h) and the
       marks of [print_table_body] (solver/tabu_search/tabu_search_print.h) *)

Module IncumbentExt.
Import Incumbent.

(** [try_update_incumbent(a_model, a_SCORE)]: the local [solution] starts
    as the default-constructed [default_solution] and is taken from
    [a_model->export_solution()] (the value [exported]) at the first
    improvement only; the last component counts the calls of
    [export_solution]. *)
Definition try_update_incumbent_model {Solution : Type} (default_solution exported : Solution)
    (h : IncumbentHolder Solution) (a_SCORE : SolutionScore)
    : Z * IncumbentHolder Solution * nat :=
  let export (st : Solution * bool * nat) :=
    let '(solution, is_solution_updated, calls) := st in
    if negb is_solution_updated then (exported, true, S calls)
    else (solution, is_solution_updated, calls) in
  let st := (default_solution, false, 0%nat) in
  let status := STATUS_NO_UPDATED in
  let '(status, h, st) :=
    if double_lt (local_augmented_objective a_SCORE) (m_local_augmented_incumbent_objective h)
    then let st := export st in
         (status + STATUS_LOCAL_AUGMENTED_INCUMBENT_UPDATE,
          set_local Solution h (fst (fst st)) a_SCORE, st)
    else (status, h, st) in
  let '(status, h, st) :=
    if double_lt (global_augmented_objective a_SCORE) (m_global_augmented_incumbent_objective h)
    then let st := export st in
         (status + STATUS_GLOBAL_AUGMENTED_INCUMBENT_UPDATE,
          set_global Solution h (fst (fst st)) a_SCORE, st)
    else (status, h, st) in
  if is_feasible a_SCORE then
    let h := set_found Solution h in
    if double_lt (objective a_SCORE) (m_feasible_incumbent_objective h)
    then let st := export st in
         (status + STATUS_FEASIBLE_INCUMBENT_UPDATE,
          set_feasible Solution h (fst (fst st)) a_SCORE, snd st)
    else (status, h, snd st)
  else (status, h, snd st).

(** [reset_local_augmented_incumbent()] *)
Definition reset_local_augmented_incumbent {Solution : Type} (h : IncumbentHolder Solution)
    : IncumbentHolder Solution :=
  {| m_found_feasible_solution := m_found_feasible_solution h;
     m_local_augmented_incumbent_solution := m_local_augmented_incumbent_solution h;
     m_global_augmented_incumbent_solution := m_global_augmented_incumbent_solution h;
     m_feasible_incumbent_solution := m_feasible_incumbent_solution h;
     m_local_augmented_incumbent_objective := DEFAULT_OBJECTIVE;
     m_global_augmented_incumbent_objective := m_global_augmented_incumbent_objective h;
     m_feasible_incumbent_objective := m_feasible_incumbent_objective h;
     m_local_augmented_incumbent_score := m_local_augmented_incumbent_score h;
     m_global_augmented_incumbent_score := m_global_augmented_incumbent_score h;
     m_feasible_incumbent_score := m_feasible_incumbent_score h |}.

(** The marks [mark_current], [mark_global_augmented_incumbent] and
    [mark_feasible_incumbent] of [print_table_body] for [a_STATUS]. *)
Definition table_marks (a_STATUS : Z) : ascii * ascii * ascii :=
  let '(mark_current, mark_global_augmented_incumbent, mark_feasible_incumbent) :=
    (" "%char, " "%char, " "%char) in
  let '(mark_current, mark_global_augmented_incumbent, mark_feasible_incumbent) :=
    if negb (Z.land a_STATUS STATUS_GLOBAL_AUGMENTED_INCUMBENT_UPDATE =? 0)
    then ("!"%char, "!"%char, mark_feasible_incumbent)
    else (mark_current, mark_global_augmented_incumbent, mark_feasible_incumbent) in
  if negb (Z.land a_STATUS STATUS_FEASIBLE_INCUMBENT_UPDATE =? 0)
  then ("*"%char, mark_global_augmented_incumbent, "*"%char)
  else (mark_current, mark_global_augmented_incumbent, mark_feasible_incumbent).

End IncumbentExt.

(* ------------------------------------------------------------------ *)
(** ** More of the outer loop of [solver::solve] (solver/solver.h) *)

Module SolverLoopExt.
Import SolverLoop.

Definition STATUS_FEASIBLE_INCUMBENT_UPDATE : Z := 4.

(** [static_cast<int>] of a double: truncation toward zero. *)
Definition trunc (q : Q) : Z := if Qle_bool 0 q then Qfloor q else - Qfloor (- q).

(** The update of [next_inital_tabu_tenure] at the end of a loop.  The
    biases are doubles ([memory.bias()] is NaN while no variable has been
    updated, a division 0 / 0), hence [Incumbent.double] and its IEEE
    comparison.  [option.tabu_search.initial_tabu_tenure] was set to
    [next_inital_tabu_tenure] at the start of the loop, so both are the
    argument [next_inital_tabu_tenure]. *)
Definition update_initial_tabu_tenure (is_enabled_automatic_tabu_tenure_adjustment : bool)
    (total_update_status master_initial_tabu_tenure number_of_not_fixed_variables : Z)
    (bias previous_bias : Incumbent.double) (next_inital_tabu_tenure : Z) : Z :=
  if is_enabled_automatic_tabu_tenure_adjustment then
    if negb (Z.land total_update_status STATUS_GLOBAL_AUGMENTED_INCUMBENT_UPDATE =? 0) then
      Z.min master_initial_tabu_tenure number_of_not_fixed_variables
    else if Incumbent.double_lt previous_bias bias then
      Z.min (next_inital_tabu_tenure + 1) number_of_not_fixed_variables
    else if Incumbent.double_lt bias previous_bias then
      Z.max (next_inital_tabu_tenure - 1) 1
    else next_inital_tabu_tenure
  else master_initial_tabu_tenure.

(** [static_cast<int>(std::floor(initial_modification_fixed_rate *
    next_inital_tabu_tenure))] *)
Definition nominal_number_of_initial_modification (initial_modification_fixed_rate : Q)
    (next_inital_tabu_tenure : Z) : Z :=
  Qfloor (initial_modification_fixed_rate * inject_Z next_inital_tabu_tenure).

(** [static_cast<int>(initial_modification_randomize_rate *
    nominal_number_of_initial_modification)] *)
Definition initial_modification_random_width (initial_modification_randomize_rate : Q)
    (nominal_number_of_initial_modification : Z) : Z :=
  trunc (initial_modification_randomize_rate * inject_Z nominal_number_of_initial_modification).

(** The update of [next_number_of_initial_modification]; [r] is the next
    output of [get_rand_mt], drawn only when the random width is
    positive.  In [number += get_rand_mt() % (2 * w) - w] the right-hand
    side is an [unsigned long], so the sum is computed modulo 2^64 and
    converted back to [int]. *)
Definition update_number_of_initial_modification (total_update_status : Z)
    (is_enabled_initial_modification is_changed : bool)
    (initial_modification_fixed_rate initial_modification_randomize_rate : Q)
    (next_inital_tabu_tenure r next_number_of_initial_modification : Z) : Z :=
  if negb (Z.land total_update_status STATUS_FEASIBLE_INCUMBENT_UPDATE =? 0) then 0
  else if negb (Z.land total_update_status STATUS_GLOBAL_AUGMENTED_INCUMBENT_UPDATE =? 0) then 0
  else if is_enabled_initial_modification && negb is_changed then
    let nominal := nominal_number_of_initial_modification
                     initial_modification_fixed_rate next_inital_tabu_tenure in
    let width := initial_modification_random_width
                   initial_modification_randomize_rate nominal in
    let number := nominal in
    let number :=
      if 0 <? width then
        Int32.wrap (UInt64.wrap (UInt64.wrap number +
                      UInt64.wrap (r mod UInt64.wrap (2 * width) - UInt64.wrap width)))
      else number in
    Z.max 1 number
  else next_number_of_initial_modification.

(** The update of [next_iteration_max]; [static_cast<int>(ceil(x))] is
    [Qceiling x].  [option.tabu_search.iteration_max] was set to
    [next_iteration_max] at the start of the loop when the automatic
    adjustment is enabled. *)
Definition update_iteration_max
    (is_enabled_automatic_iteration_adjustment is_early_stopped : bool)
    (total_update_status last_local_augmented_incumbent_update_iteration : Z)
    (iteration_increase_rate : Q)
    (master_initial_tabu_tenure master_iteration_max next_iteration_max : Z) : Z :=
  if is_enabled_automatic_iteration_adjustment && negb is_early_stopped then
    let next_iteration_max_temp :=
      if negb (Z.land total_update_status STATUS_GLOBAL_AUGMENTED_INCUMBENT_UPDATE =? 0)
      then Qceiling (inject_Z last_local_augmented_incumbent_update_iteration
                     * iteration_increase_rate)
      else Qceiling (inject_Z next_iteration_max * iteration_increase_rate) in
    Z.max master_initial_tabu_tenure (Z.min master_iteration_max next_iteration_max_temp)
  else next_iteration_max.

(** The adjustment of [master_option.target_objective_value] at the
    start of [solve]: [sign] is [model->sign()], [EPSILON] is
    [constant::EPSILON]. *)
Definition adjust_target_objective (DEFAULT_TARGET_OBJECTIVE EPSILON sign : Q)
    (is_defined_objective : bool) (target_objective_value : Q) : Q :=
  let target_objective_changed_rate :=
    (target_objective_value / DEFAULT_TARGET_OBJECTIVE - 1)%Q in
  let target_objective_value :=
    if Qltb EPSILON (Qabs target_objective_changed_rate)
    then (target_objective_value * sign)%Q else target_objective_value in
  if Qltb (Qabs target_objective_changed_rate) EPSILON
  then (if negb is_defined_objective then 0%Q else target_objective_value)
  else target_objective_value.

(** The export of [named_penalty_coefficients] and [named_update_counts]
    at the end of [solve]: [named[names[i]] = values[i]] for
    [i < size], into an [std::unordered_map] (a [gmap]). *)
Definition name_values {A : Type} (size : nat) (names : list string) (values : list A)
    : gmap string A :=
  fold_left (fun named i =>
               match names !! i, values !! i with
               | Some k, Some v => <[k := v]> named
               | _, _ => named
               end) (seq 0 size) ∅.

(** The last position below [n] holding the name [k]. *)
Fixpoint last_index (k : string) (names : list string) (n : nat) : option nat :=
  match n with
  | O => None
  | S n' => if bool_decide (names !! n' = Some k) then Some n' else last_index k names n'
  end.

End SolverLoopExt.

(* ------------------------------------------------------------------ *)
(** ** Argument parsing of the QAP solver (application/qap_solver/main.cpp) *)

Module QapMain.

(** The [while (i < args.size())] loop; [None] when [args[i + 1]] is read
    past the end of [args].  Each round advances [i], so [fuel] =
    [args.size()] rounds suffice. *)
Fixpoint parse_arguments (fuel : nat) (args : list string) (i : nat)
    (qap_file_name option_file_name : string) : option (string * string) :=
  match fuel with
  | O => Some (qap_file_name, option_file_name)
  | S fuel' =>
      if Nat.ltb i (length args) then
        match args !! i with
        | Some a =>
            if String.eqb a "-p" then
              match args !! (i + 1)%nat with
              | Some o => parse_arguments fuel' args (i + 2)%nat qap_file_name o
              | None => None
              end
            else parse_arguments fuel' args (S i) a option_file_name
        | None => Some (qap_file_name, option_file_name)
        end
      else Some (qap_file_name, option_file_name)
  end.

Inductive MainOutcome :=
  | Usage
  | OutOfRange
  | Run (qap_file_name option_file_name : string).

(** [main]: [argv[1] == nullptr] exactly when there is no argument past
    the program name ([argv[argc]] is the null pointer); otherwise the
    arguments [args(argv, argv + argc)] are parsed from [i = 1]. *)
Definition main_arguments (args : list string) : MainOutcome :=
  match args !! 1%nat with
  | None => Usage
  | Some _ =>
      match parse_arguments (length args) args 1 EmptyString EmptyString with
      | Some (q, o) => Run q o
      | None => OutOfRange
      end
  end.

(** The same loop read on the list of the remaining arguments. *)
Fixpoint parse_list (args : list string) (qap_file_name option_file_name : string)
    : option (string * string) :=
  match args with
  | [] => Some (qap_file_name, option_file_name)
  | a :: rest =>
      if String.eqb a "-p" then
        match rest with
        | [] => None
        | o :: rest' => parse_list rest' qap_file_name o
        end
      else parse_list rest a option_file_name
  end.

End QapMain.

(* ================================================================== *)
(** * Proofs *)

Module Int32Facts.
Import Int32.

Lemma wrap_small z : INT_MIN <= z <= INT_MAX -> wrap z = z.
Proof.
  unfold wrap, INT_MIN, INT_MAX. intros H.
  rewrite Z.mod_small; lia.
Qed.

Lemma mul_small a b : INT_MIN <= a * b <= INT_MAX -> mul a b = a * b.
Proof. apply wrap_small. Qed.

Lemma add_small a b : INT_MIN <= a + b <= INT_MAX -> add a b = a + b.
Proof. apply wrap_small. Qed.

End Int32Facts.

Module MultiArrayFacts.
Import Int32 Int32Facts MultiArray.

Lemma prod_app l1 l2 : prod (l1 ++ l2) = prod l1 * prod l2.
Proof. induction l1 as [|x l1 IH]; simpl; [lia | rewrite IH; ring]. Qed.

Lemma prod_rev l : prod (rev l) = prod l.
Proof.
  induction l as [|x l IH]; simpl; [done|].
  rewrite prod_app, IH. simpl. ring.
Qed.

Lemma prod_pos l : pos_all l -> 1 <= prod l.
Proof.
  induction 1 as [|x l Hx _ IH]; simpl; nia.
Qed.

Lemma prefix_products_scale l : forall acc,
  prefix_products acc l = map (Z.mul acc) (prefix_products 1 l).
Proof.
  induction l as [|x l IH]; intros acc; simpl.
  - by rewrite Z.mul_1_r.
  - rewrite (IH (acc * x)), (IH (1 * x)), map_map. f_equal; [ring|].
    apply map_ext. intros y. ring.
Qed.

Lemma suffix_strides_snoc u y :
  suffix_strides (u ++ [y]) = map (Z.mul y) (suffix_strides u) ++ [1].
Proof.
  induction u as [|x u IH]; simpl.
  - by rewrite Z.mul_1_r.
  - rewrite IH. f_equal. rewrite prod_app. simpl. ring.
Qed.

Lemma rev_prefix_products t :
  rev (prefix_products 1 (rev t)) = suffix_strides t.
Proof.
  induction t as [|y u IH] using rev_ind; [done|].
  rewrite rev_app_distr. simpl.
  rewrite Z.mul_1_l, prefix_products_scale.
  rewrite <- map_rev, IH, suffix_strides_snoc. done.
Qed.

Lemma partial_from_pure l : forall acc,
  0 < acc -> pos_all l -> acc * prod l <= INT_MAX ->
  acc :: partial_from acc l = prefix_products acc l.
Proof.
  induction l as [|y l IH]; intros acc Hacc Hl Hb; [done|].
  inversion Hl as [|? ? Hy Hl']; subst. simpl in *.
  pose proof (prod_pos l Hl') as Hp.
  rewrite mul_small by (unfold INT_MIN in *; nia).
  rewrite IH; [done | nia | done | nia].
Qed.

Lemma compute_strides_spec s0 rest :
  pos_all (s0 :: rest) -> prod (s0 :: rest) <= INT_MAX ->
  compute_strides (s0 :: rest) = Some (suffix_strides rest).
Proof.
  intros Hpos Hb. inversion Hpos as [|? ? Hs0 Hrest]; subst.
  simpl. f_equal. rewrite <- rev_prefix_products.
  simpl in Hb. pose proof (prod_pos rest Hrest).
  assert (Hrv : pos_all (rev rest)) by (apply Forall_rev; done).
  assert (Hpr : prod (rev rest) <= INT_MAX) by (rewrite prod_rev; nia).
  assert (E : 1 :: partial_sum_mul (rev rest) = prefix_products 1 (rev rest)).
  { destruct (rev rest) as [|x xs]; [done|].
    inversion Hrv as [|? ? Hx Hxs]; subst. simpl in Hpr |- *.
    rewrite Z.mul_1_l, partial_from_pure; [done | lia | done | lia]. }
  rewrite <- E. done.
Qed.

Lemma accumulate_spec l : forall acc,
  0 < acc -> pos_all l -> acc * prod l <= INT_MAX ->
  fold_left mul l acc = acc * prod l.
Proof.
  induction l as [|x l IH]; intros acc Hacc Hl Hb; simpl; [lia|].
  inversion Hl as [|? ? Hx Hl']; subst. simpl in Hb.
  pose proof (prod_pos l Hl').
  rewrite mul_small by (unfold INT_MIN; nia).
  rewrite IH; [ring | nia | done | nia].
Qed.

Lemma inner_pure_shift xs : forall ys acc,
  inner_pure acc xs ys = acc + inner_pure 0 xs ys.
Proof.
  induction xs as [|x xs IH]; intros [|y ys] acc; simpl; try lia.
  rewrite (IH ys (acc + x * y)), (IH ys (0 + x * y)). lia.
Qed.

Lemma inner_pure_nonneg xs : forall ys,
  Forall (fun x => 0 <= x) xs -> Forall (fun y => 0 <= y) ys ->
  0 <= inner_pure 0 xs ys.
Proof.
  induction xs as [|x xs IH]; intros [|y ys] Hx Hy; simpl; try lia.
  inversion Hx as [|? ? Hx0 Hxs]; inversion Hy as [|? ? Hy0 Hys]; subst.
  rewrite inner_pure_shift. specialize (IH ys Hxs Hys). nia.
Qed.

Lemma inner_product_pure xs : forall ys acc,
  0 <= acc -> Forall (fun x => 0 <= x) xs -> Forall (fun y => 0 <= y) ys ->
  inner_pure acc xs ys <= INT_MAX ->
  inner_product acc xs ys = inner_pure acc xs ys.
Proof.
  induction xs as [|x xs IH]; intros [|y ys] acc Hacc Hx Hy Hb; simpl in *; try done.
  inversion Hx as [|? ? Hx0 Hxs]; inversion Hy as [|? ? Hy0 Hys]; subst.
  rewrite inner_pure_shift in Hb.
  pose proof (inner_pure_nonneg xs ys Hxs Hys).
  rewrite (mul_small x y) by (unfold INT_MIN; nia).
  rewrite (add_small acc (x * y)) by (unfold INT_MIN; nia).
  apply IH; try done; [nia|]. rewrite inner_pure_shift. lia.
Qed.

Lemma roundtrip_pure t : forall s0 k,
  pos_all (s0 :: t) -> 0 <= k < s0 * prod t ->
  inner_pure 0 (md_index_loop k (suffix_strides t)) (suffix_strides t) = k /\
  Forall2 (fun i s => 0 <= i < s) (md_index_loop k (suffix_strides t)) (s0 :: t).
Proof.
  induction t as [|x t IH]; intros s0 k Hpos Hk.
  - simpl. rewrite Z.quot_1_r. split; [lia|].
    constructor; [simpl in Hk; lia | constructor].
  - inversion Hpos as [|? ? Hs0 Hrest]; subst.
    inversion Hrest as [|? ? Hx Ht]; subst.
    pose proof (prod_pos t Ht) as Hp.
    cbn [suffix_strides md_index_loop].
    set (P := prod (x :: t)) in *.
    assert (HP : 0 < P) by (subst P; simpl; nia).
    rewrite Z.quot_div_nonneg, Z.rem_mod_nonneg by lia.
    destruct (IH x (k mod P)) as [H1 H2]; [done | subst P; simpl; apply Z.mod_pos_bound; nia |].
    split.
    + simpl. rewrite inner_pure_shift, H1.
      pose proof (Z.div_mod k P ltac:(lia)). lia.
    + constructor; [|done]. split; [apply Z.div_pos; lia|].
      apply Z.div_lt_upper_bound; [lia|]. subst P. simpl in *. nia.
Qed.

Lemma bounded_nonneg (l sh : list Z) :
  Forall2 (fun i s => 0 <= i < s) l sh -> Forall (fun i => 0 <= i) l.
Proof.
  intros H. induction H; constructor; [lia | done].
Qed.

Lemma suffix_strides_pos t : pos_all t -> Forall (fun y => 0 <= y) (suffix_strides t).
Proof.
  induction 1 as [|x t Hx Ht IH]; simpl.
  - constructor; [lia | constructor].
  - constructor; [|done]. pose proof (prod_pos t Ht). nia.
Qed.

End MultiArrayFacts.

Module DecimalFacts.
Import Decimal.

Lemma dec_go_length fuel : forall n acc,
  String.length (dec_go fuel n acc) = (ndigits fuel n + String.length acc)%nat.
Proof.
  induction fuel as [|f IH]; intros n acc; simpl; [done|].
  destruct (n <? 10); simpl; [done|]. rewrite IH. simpl. lia.
Qed.

Lemma ndigits_mono fuel : forall a b, 0 <= a <= b -> (ndigits fuel a <= ndigits fuel b)%nat.
Proof.
  induction fuel as [|f IH]; intros a b Hab; simpl; [lia|].
  destruct (a <? 10) eqn:Ea, (b <? 10) eqn:Eb;
    rewrite ?Z.ltb_lt, ?Z.ltb_ge in Ea, Eb; try lia.
  apply le_n_S, IH. split; [apply Z.div_pos; lia | apply Z.div_le_mono; lia].
Qed.

Lemma to_string_nonneg z : 0 <= z -> to_string z = dec_go 20 z EmptyString.
Proof. intros H. unfold to_string. destruct (z <? 0) eqn:E; [lia | done]. Qed.

Lemma to_string_length_mono a b : 0 <= a <= b ->
  (String.length (to_string a) <= String.length (to_string b))%nat.
Proof.
  intros H. rewrite !to_string_nonneg by lia. rewrite !dec_go_length.
  pose proof (ndigits_mono 20 a b H). cbn [String.length]. lia.
Qed.

Lemma string_length_append (s1 s2 : string) :
  String.length (s1 ++ s2) = (String.length s1 + String.length s2)%nat.
Proof. induction s1; simpl; auto. Qed.

Lemma spaces_length n : String.length (spaces n) = n.
Proof. induction n; simpl; auto. Qed.

End DecimalFacts.

Module MultiArrayClaims.
Import Int32 Int32Facts MultiArray MultiArrayFacts.

Lemma constructed_strides a :
  constructed a -> pos_all (shape a) -> prod (shape a) <= INT_MAX ->
  exists s0 rest, shape a = s0 :: rest /\ strides a = suffix_strides rest /\
                  number_of_elements a = prod (shape a).
Proof.
  intros [[i H]|[[i [n H]]|[i [sh H]]]] Hpos Hb.
  - unfold make_scalar in H. simpl in H. injection H as <-.
    exists 1, []. done.
  - unfold make_1d in H. simpl in H. injection H as <-.
    exists n, []. simpl in *. split; [done|]. split; [done|].
    unfold UInt64.wrap. inversion Hpos. unfold INT_MAX in Hb. rewrite Z.mod_small; lia.
  - unfold make in H. destruct (compute_strides sh) as [st|] eqn:E; [|done].
    injection H as <-. simpl in *. destruct sh as [|s0 rest]; [done|].
    rewrite compute_strides_spec in E by done. injection E as <-.
    exists s0, rest. split; [done|]. split; [done|].
    pose proof (prod_pos _ Hpos).
    unfold accumulate_mul, UInt64.wrap. rewrite accumulate_spec; [| lia | done | lia].
    unfold INT_MAX in Hb. rewrite Z.mod_small; lia.
Qed.

Lemma md_index_roundtrip (a : AbstractMultiArray) (k : Z) :
  constructed a ->
  Forall (fun s => 0 < s) (shape a) ->
  prod (shape a) <= INT_MAX ->
  0 <= k < number_of_elements a ->
  flat_index_of a (multi_dimensional_index_of a k) = k /\
  Forall2 (fun i s => 0 <= i < s) (multi_dimensional_index_of a k) (shape a).
Proof.
  intros Hc Hpos Hb Hk.
  destruct (constructed_strides a Hc Hpos Hb) as [s0 [rest [Hsh [Hst Hne]]]].
  unfold flat_index_of, multi_dimensional_index_of, multi_dimensional_index, flat_index.
  rewrite Hst. rewrite Hsh in Hpos, Hb, Hne |- *.
  destruct (roundtrip_pure rest s0 k Hpos) as [H1 H2]; [simpl in Hne; lia|].
  split; [|done].
  simpl in Hb, Hne.
  rewrite inner_product_pure; [done | lia | | |].
  - eapply bounded_nonneg. exact H2.
  - apply suffix_strides_pos. inversion Hpos; done.
  - rewrite H1. lia.
Qed.


Lemma fold_max_ge xs : forall x,
  x <= fold_left Z.max xs x /\ Forall (fun y => y <= fold_left Z.max xs x) xs.
Proof.
  induction xs as [|y xs IH]; intros x; simpl; [split; [lia | constructor]|].
  destruct (IH (Z.max x y)) as [H1 H2]. split; [lia|].
  constructor; [lia | done].
Qed.

Lemma vector_max_ge sh : sh <> [] -> Forall (fun s => s <= vector_max sh) sh.
Proof.
  destruct sh as [|x xs]; [done|]. intros _. simpl.
  destruct (fold_max_ge xs x) as [H1 H2]. constructor; done.
Qed.

Lemma bounded_below_max (idx sh : list Z) (M : Z) :
  Forall2 (fun i s => 0 <= i < s) idx sh -> Forall (fun s => s <= M) sh ->
  Forall (fun i => 0 <= i <= M) idx.
Proof.
  induction 1 as [|i s idx sh Hi _ IH]; intros HM; [constructor|].
  inversion HM; subst. constructor; [lia | auto].
Qed.

Lemma label_loop_concat w idx :
  label_loop w idx = String.concat ", " (map (Decimal.format_d w) idx).
Proof.
  induction idx as [|i idx IH]; [done|].
  destruct idx as [|i' idx]; [done|].
  change (label_loop w (i :: i' :: idx))
    with (Decimal.format_d w i ++ ", " ++ label_loop w (i' :: idx))%string.
  rewrite IH. reflexivity.
Qed.

(** C9 (amended): for every [AbstractMultiArray] whose shape entries are positive
    (and whose element count fits in an [int], so that the [int]
    products of [compute_strides] do not wrap), every flat index
    [0 <= k < number_of_elements] satisfies
    [flat_index(multi_dimensional_index(k)) = k], and every component of
    [multi_dimensional_index(k)] lies in [0, shape_i). *)
Theorem flat_index_multi_dimensional_index (a : AbstractMultiArray) (k : Z) :
  constructed a ->
  Forall (fun s => 0 < s) (shape a) ->
  prod (shape a) <= INT_MAX ->
  0 <= k < number_of_elements a ->
  flat_index_of a (multi_dimensional_index_of a k) = k /\
  Forall2 (fun i s => 0 <= i < s) (multi_dimensional_index_of a k) (shape a).
Proof. apply md_index_roundtrip. Qed.

(** Witness: the 2 x 3 array and its flat index 4 = (1, 1). *)
Lemma flat_index_multi_dimensional_index_witness :
  exists a, make 0 [2; 3] = Some a /\
  flat_index_of a (multi_dimensional_index_of a 4) = 4 /\
  Forall2 (fun i s => 0 <= i < s) (multi_dimensional_index_of a 4) (shape a).
Proof.
  eexists. split; [reflexivity|].
  apply (flat_index_multi_dimensional_index _ 4).
  - right. right. exists 0, [2; 3]. reflexivity.
  - simpl. repeat constructor; lia.
  - simpl. unfold INT_MAX. lia.
  - vm_compute. split; congruence.
Defined.


(** C9 counterexample: the shape [[1431655764; 9241; 464773]] has
    positive entries, but its [int] product wraps to 4; the strides
    wrap to [[-3; 464773; 1]] and the flat index 3 is read back as
    [[-1; 0; 0]], whose first component is negative. *)
Lemma md_index_negative_on_overflow :
  exists a, make 0 [1431655764; 9241; 464773] = Some a /\
    Forall (fun s => 0 < s) (shape a) /\
    0 <= 3 < number_of_elements a /\
    multi_dimensional_index_of a 3 = [-1; 0; 0] /\
    ~ Forall2 (fun i s => 0 <= i < s) (multi_dimensional_index_of a 3) (shape a).
Proof.
  eexists. split; [reflexivity|].
  split; [simpl; repeat constructor; lia|].
  split; [vm_compute; split; congruence|].
  match goal with |- _ /\ ~ Forall2 _ ?x _ =>
    assert (E : x = [-1; 0; 0]) by (vm_compute; reflexivity) end.
  split; [exact E|]. rewrite E. cbn [shape].
  intros H. inversion H; lia.
Qed.




End MultiArrayClaims.

Module MemoryClaims.
Import MoveM MemoryM.

Lemma entry_update_entry {A} (g : A -> A) p f (t : list (list A)) p' f' :
  entry (update_entry g p f t) p' f' =
    if decide ((p, f) = (p', f')) then g <$> entry t p f else entry t p' f'.
Proof.
  unfold entry, update_entry. destruct (decide (p = p')) as [<-|Hp].
  - rewrite list_lookup_alter_eq. destruct (t !! p) as [row|]; simpl.
    + destruct (decide (f = f')) as [<-|Hf].
      * rewrite decide_True by done. by rewrite list_lookup_alter_eq.
      * rewrite decide_False by congruence. by rewrite list_lookup_alter_ne.
    + by destruct (decide _).
  - rewrite list_lookup_alter_ne by done. rewrite decide_False by congruence. done.
Qed.

Lemma valid_after_update it m a b :
  valid_alteration m b -> valid_alteration (update_alteration it m a) b.
Proof.
  intros [H1 H2]. unfold valid_alteration, update_alteration. simpl.
  rewrite !entry_update_entry.
  split; destruct (decide _) as [E|E]; try done; injection E as E1 E2;
    rewrite E1, E2; [destruct H1 as [? ->] | destruct H2 as [? ->]]; eexists; done.
Qed.

Lemma update_alterations_spec (alts : list Alteration) : forall (m : Memory) (it : Z),
  Forall (valid_alteration m) alts ->
  let m' := fold_left (update_alteration it) alts m in
  total_update_counts m' = total_update_counts m + Z.of_nat (length alts) /\
  forall p f,
    entry (update_counts m') p f =
      (fun c => c + Z.of_nat (occurrences p f alts)) <$> entry (update_counts m) p f /\
    entry (last_update_iterations m') p f =
      (if bool_decide ((p, f) ∈ map alt_var alts) then (fun _ => it) else id)
        <$> entry (last_update_iterations m) p f.
Proof.
  induction alts as [|a alts IH]; intros m it Hv m'; subst m'; simpl.
  - split; [lia|]. intros p f. unfold occurrences. simpl.
    try rewrite bool_decide_eq_false_2 by (intros H; inversion H).
    split; destruct (entry _ p f); simpl; f_equal; lia.
  - inversion Hv as [|? ? Ha Hv']; subst.
    destruct (IH (update_alteration it m a) it) as [Ht He].
    { eapply Forall_impl; [exact Hv'|]. intros b Hb. by apply valid_after_update. }
    split; [rewrite Ht; simpl; lia|].
    intros p f. destruct (He p f) as [Hc Hl]. rewrite Hc, Hl. simpl.
    rewrite !entry_update_entry. unfold occurrences. rewrite filter_cons.
    destruct Ha as [[c Hc0] [l Hl0]].
    destruct (decide ((alt_proxy_index a, alt_flat_index a) = (p, f))) as [E|E].
    + injection E as <- <-. fold (alt_var a).
      rewrite decide_True by done. rewrite Hc0, Hl0. simpl.
      rewrite (bool_decide_eq_true_2 (_ ∈ _ :: _)) by (by left).
      destruct (bool_decide _); simpl; (split; [f_equal; lia | done]).
    + fold (alt_var a) in E. rewrite decide_False by done.
      assert (Hn : (p, f) ∈ alt_var a :: map alt_var alts <-> (p, f) ∈ map alt_var alts).
      { rewrite elem_of_cons. split; [intros [H|H]; [congruence | done] | by right]. }
      split; [done|].
      destruct (bool_decide ((p, f) ∈ map alt_var alts)) eqn:B1;
      destruct (bool_decide ((p, f) ∈ alt_var a :: map alt_var alts)) eqn:B2;
      try done; apply bool_decide_eq_true in B1 || apply bool_decide_eq_true in B2;
      [apply bool_decide_eq_false in B2 | apply bool_decide_eq_false in B1]; tauto.
Qed.

(** *** Bias *)

Lemma Zsum_app l1 l2 : Zsum (l1 ++ l2) = Zsum l1 + Zsum l2.
Proof. induction l1; simpl; [done | unfold Zsum in *; simpl; lia]. Qed.

Lemma sqsum_app l1 l2 : sqsum (l1 ++ l2) = sqsum l1 + sqsum l2.
Proof. unfold sqsum. by rewrite map_app, Zsum_app. Qed.

Lemma bias_row_closed (T : Q) (row : list Z) : forall acc : Q, ~ T == 0 ->
  fold_left (fun (result : Q) (c : Z) =>
               let frequency := (inject_Z c / T)%Q in
               (result + frequency * frequency)%Q) row acc
  == acc + inject_Z (sqsum row) / (T * T).
Proof.
  induction row as [|c row IH]; intros acc HT; simpl.
  - unfold sqsum, Zsum. simpl. field. done.
  - rewrite IH by done. unfold sqsum. simpl.
    rewrite inject_Z_plus, inject_Z_mult. field. done.
Qed.

Lemma bias_rows_closed (T : Q) (rows : list (list Z)) : forall acc : Q, ~ T == 0 ->
  fold_left
    (fun (result : Q) (row : list Z) =>
       fold_left (fun (result : Q) (c : Z) =>
                    let frequency := (inject_Z c / T)%Q in
                    (result + frequency * frequency)%Q) row result) rows acc
  == acc + inject_Z (sqsum (concat rows)) / (T * T).
Proof.
  induction rows as [|row rows IH]; intros acc HT; simpl.
  - unfold sqsum, Zsum. simpl. field. done.
  - rewrite IH, bias_row_closed by done. rewrite sqsum_app, inject_Z_plus.
    field. done.
Qed.

Lemma sum_sq_freq_closed (T : Q) (l : list Z) : ~ T == 0 ->
  fold_right (fun (c : Z) (r : Q) => (inject_Z c / T) * (inject_Z c / T) + r)%Q 0%Q l
  == inject_Z (sqsum l) / (T * T).
Proof.
  intros HT. induction l as [|c l IH]; simpl.
  - unfold sqsum, Zsum. simpl. field. done.
  - rewrite IH. unfold sqsum. simpl. rewrite inject_Z_plus, inject_Z_mult.
    field. done.
Qed.

Lemma cauchy_schwarz (l : list Z) :
  Zsum l * Zsum l <= Z.of_nat (length l) * sqsum l.
Proof.
  induction l as [|x l IH]; [unfold sqsum, Zsum; simpl; lia|].
  unfold sqsum in *. unfold Zsum in *. simpl.
  set (S := fold_right Z.add 0 l) in *.
  set (Q2 := fold_right Z.add 0 (map (fun c => c * c) l)) in *.
  set (n := Z.of_nat (length l)) in *.
  assert (Hn : 0 <= n) by lia.
  assert (HQ : 0 <= Q2).
  { subst Q2. clear. induction l; simpl; nia. }
  assert (Key : 2 * x * S <= n * (x * x) + Q2).
  { destruct (Z.eq_dec n 0) as [E|E].
    - rewrite E in IH. assert (S = 0) by nia. nia.
    - assert (H : n * (2 * x * S) <= n * (n * (x * x) + Q2)).
      { pose proof (Z.square_nonneg (n * x - S)).
        assert (S * S <= n * Q2) by exact IH. nia. }
      apply Z.mul_le_mono_pos_l in H; lia. }
  rewrite Nat2Z.inj_succ. nia.
Qed.

Lemma sqsum_le_square (l : list Z) :
  Forall (fun c => 0 <= c) l -> sqsum l <= Zsum l * Zsum l.
Proof.
  induction 1 as [|x l Hx Hl IH]; [unfold sqsum, Zsum; simpl; lia|].
  unfold sqsum, Zsum in *. simpl.
  assert (0 <= fold_right Z.add 0 l).
  { clear IH. induction Hl; simpl; lia. }
  nia.
Qed.

Lemma Zsum_alter_row (row : list Z) : forall f c,
  row !! f = Some c -> Zsum (alter (Z.add 1) f row) = Zsum row + 1.
Proof.
  induction row as [|x row IH]; intros [|f] c H; try done.
  - change (Zsum (1 + x :: row) = Zsum (x :: row) + 1).
    unfold Zsum. simpl. lia.
  - change (Zsum (x :: alter (Z.add 1) f row) = Zsum (x :: row) + 1).
    change (Zsum (x :: ?l)) with (x + Zsum l). erewrite IH by done. lia.
Qed.

Lemma nonneg_alter_row (row : list Z) : forall f,
  Forall (fun c => 0 <= c) row -> Forall (fun c => 0 <= c) (alter (Z.add 1) f row).
Proof.
  induction row as [|x row IH]; intros [|f] H; try done;
    inversion H as [|? ? Hx Hr]; subst.
  - change (Forall (fun c => 0 <= c) (1 + x :: row)). constructor; [lia | done].
  - change (Forall (fun c => 0 <= c) (x :: alter (Z.add 1) f row)).
    constructor; [done | by apply IH].
Qed.

Lemma Zsum_update_entry (t : list (list Z)) : forall p f c,
  entry t p f = Some c ->
  Zsum (concat (update_entry (Z.add 1) p f t)) = Zsum (concat t) + 1.
Proof.
  unfold entry, update_entry.
  induction t as [|row t IH]; intros [|p] f c H; try done.
  - change (Zsum (alter (Z.add 1) f row ++ concat t)
            = Zsum (row ++ concat t) + 1).
    simpl in H. rewrite !Zsum_app. erewrite Zsum_alter_row by done. lia.
  - change (Zsum (row ++ concat (alter (alter (Z.add 1) f) p t))
            = Zsum (row ++ concat t) + 1).
    simpl in H. rewrite !Zsum_app. erewrite IH by done. lia.
Qed.

Lemma nonneg_update_entry (t : list (list Z)) : forall p f,
  Forall (fun c => 0 <= c) (concat t) ->
  Forall (fun c => 0 <= c) (concat (update_entry (Z.add 1) p f t)).
Proof.
  unfold update_entry.
  induction t as [|row t IH]; intros [|p] f H; try done;
    change (Forall (fun c => 0 <= c) (row ++ concat t)) in H;
    apply Forall_app in H as [H1 H2].
  - change (Forall (fun c => 0 <= c) (alter (Z.add 1) f row ++ concat t)).
    apply Forall_app. split; [by apply nonneg_alter_row | done].
  - change (Forall (fun c => 0 <= c)
              (row ++ concat (alter (alter (Z.add 1) f) p t))).
    apply Forall_app. split; [done | by apply IH].
Qed.

Lemma inv_update_alterations (alts : list Alteration) : forall m it,
  inv m -> Forall (valid_alteration m) alts ->
  inv (fold_left (update_alteration it) alts m).
Proof.
  induction alts as [|a alts IH]; intros m it Hi Hv; simpl; [done|].
  inversion Hv as [|? ? Ha Hv']; subst. apply IH.
  - destruct Hi as [H1 [H2 H3]]. destruct Ha as [[c Hc] _].
    unfold inv, update_alteration. simpl. split; [|split].
    + unfold update_entry. by rewrite length_alter.
    + erewrite Zsum_update_entry by done. lia.
    + by apply nonneg_update_entry.
  - eapply Forall_impl; [exact Hv'|]. intros b Hb. by apply valid_after_update.
Qed.

Lemma reachable_inv m : reachable m -> inv m.
Proof.
  induction 1 as [names sizes Hlen | m mv it Hr IH Hv].
  - unfold inv, setup. simpl. rewrite length_map. split; [done|].
    clear. induction sizes as [|n sizes IH]; simpl; [split; [done | constructor]|].
    destruct IH as [IH1 IH2]. rewrite Zsum_app, IH1.
    split; [|apply Forall_app; split; [by apply Forall_replicate | done]].
    enough (Zsum (replicate n 0) = 0) by lia.
    induction n; [done | unfold Zsum in *; simpl in *; lia].
  - by apply inv_update_alterations.
Qed.

(** C10 (amended): [Memory.update(move, iteration)] sets
    [last_update_iterations[p][f] = iteration] for exactly the variables
    [(p, f)] of the move's alterations, increases [update_counts[p][f]] by
    the number of alterations on [(p, f)] (by one for a variable altered
    once), increases [total_update_counts] by the number of alterations,
    and leaves the entries of every other variable unchanged. *)
Theorem update_frame (m : Memory) (mv : Move) (it : Z) :
  Forall (valid_alteration m) (alterations mv) ->
  total_update_counts (update mv it m) =
    total_update_counts m + Z.of_nat (length (alterations mv)) /\
  forall p f,
    entry (update_counts (update mv it m)) p f =
      (fun c => c + Z.of_nat (occurrences p f (alterations mv)))
        <$> entry (update_counts m) p f /\
    entry (last_update_iterations (update mv it m)) p f =
      (if bool_decide ((p, f) ∈ map alt_var (alterations mv))
       then (fun _ => it) else id) <$> entry (last_update_iterations m) p f.
Proof. intros Hv. exact (update_alterations_spec (alterations mv) m it Hv). Qed.

(** Witness: two distinct variables [x[0]], [x[1]] in one move. *)
Lemma update_frame_witness :
  total_update_counts
    (update {| alterations := [Build_Alteration 0 0 1; Build_Alteration 0 1 1];
               related_constraint_ptrs := [] |} 7 (setup ["x"%string] [2%nat])) =
    0 + Z.of_nat 2 /\
  forall p f,
    entry (update_counts (update {| alterations := [Build_Alteration 0 0 1; Build_Alteration 0 1 1];
               related_constraint_ptrs := [] |} 7 (setup ["x"%string] [2%nat]))) p f =
      (fun c => c + Z.of_nat (occurrences p f [Build_Alteration 0 0 1; Build_Alteration 0 1 1]))
        <$> entry (update_counts (setup ["x"%string] [2%nat])) p f /\
    entry (last_update_iterations (update {| alterations := [Build_Alteration 0 0 1; Build_Alteration 0 1 1];
               related_constraint_ptrs := [] |} 7 (setup ["x"%string] [2%nat]))) p f =
      (if bool_decide ((p, f) ∈ map alt_var [Build_Alteration 0 0 1; Build_Alteration 0 1 1])
       then (fun _ => 7) else id) <$> entry (last_update_iterations (setup ["x"%string] [2%nat])) p f.
Proof.
  apply (update_frame (setup ["x"%string] [2%nat])
           {| alterations := [Build_Alteration 0 0 1; Build_Alteration 0 1 1];
              related_constraint_ptrs := [] |} 7).
  repeat constructor; vm_compute; eexists; reflexivity.
Defined.

(** C10 counterexample: a move altering [x[0]] twice increments its
    update count by two, not by one. *)
Lemma update_counts_not_by_one :
  entry (update_counts
           (update {| alterations := [Build_Alteration 0 0 1; Build_Alteration 0 0 0];
                      related_constraint_ptrs := [] |} 3 (setup ["x"%string] [1%nat]))) 0 0
    = Some 2 /\
  entry (update_counts (setup ["x"%string] [1%nat])) 0 0 = Some 0.
Proof. split; reflexivity. Qed.

Lemma bias_closed_Q m :
  inv m -> ~ inject_Z (total_update_counts m) == 0 ->
  bias m == inject_Z (sqsum (concat (update_counts m)))
            / (inject_Z (total_update_counts m) * inject_Z (total_update_counts m)).
Proof.
  intros [Hlen _] HT. unfold bias.
  rewrite take_ge by lia. rewrite bias_rows_closed by done. ring.
Qed.

(** C5 (amended): for every memory reachable by [setup] and [update]
    with [total_update_counts > 0], [bias()] equals the sum over all
    variable entries of [(update_count / total_update_counts)^2], and
    with [n] the number of entries the value lies in the CLOSED interval
    [[1/n, 1]]. *)
Theorem bias_closed_form_bounds (m : Memory) :
  reachable m -> 0 < total_update_counts m ->
  let T := inject_Z (total_update_counts m) in
  let n := inject_Z (Z.of_nat (number_of_entries m)) in
  (bias m == fold_right (fun (c : Z) (r : Q) => (inject_Z c / T) * (inject_Z c / T) + r)%Q
               0%Q (concat (update_counts m)))
  /\ (1 / n <= bias m)%Q /\ (bias m <= 1)%Q.
Proof.
  intros Hr HT0 T n.
  pose proof (reachable_inv m Hr) as Hi.
  destruct Hi as [Hlen [Hsum Hnn]].
  assert (HT : ~ T == 0).
  { subst T. intros E. unfold Qeq, inject_Z in E. simpl in E. lia. }
  assert (Hb : bias m == inject_Z (sqsum (concat (update_counts m))) / (T * T)).
  { apply bias_closed_Q; [split; [done | split; done] | done]. }
  split; [rewrite Hb, sum_sq_freq_closed by done; reflexivity|].
  unfold number_of_entries in n.
  set (L := concat (update_counts m)) in *.
  pose proof (cauchy_schwarz L) as Hcs.
  pose proof (sqsum_le_square L Hnn) as Hup.
  rewrite Hsum in Hcs, Hup.
  destruct (total_update_counts m) as [|t|t] eqn:Et; try lia.
  destruct (length L) as [|k] eqn:Ek.
  { destruct L; [unfold Zsum in Hsum; simpl in Hsum; lia | discriminate]. }
  subst n T. rewrite Hb.
  assert (Ek' : Z.of_nat (S k) = Z.pos (Pos.of_succ_nat k)) by lia.
  assert (E1 : inject_Z (sqsum L) / (inject_Z (Z.pos t) * inject_Z (Z.pos t))
               == sqsum L # (t * t)).
  { rewrite <- inject_Z_mult. symmetry. apply Qmake_Qdiv. }
  assert (E2 : 1 / inject_Z (Z.of_nat (S k)) == 1 # Pos.of_succ_nat k).
  { rewrite Ek'. symmetry. apply Qmake_Qdiv. }
  rewrite E1, E2. rewrite Ek' in Hcs.
  unfold Qle; simpl. lia.
Qed.

(** Witness for C5: one variable with two entries, each updated once. *)
Lemma bias_closed_form_bounds_witness :
  let m := update {| alterations := [Build_Alteration 0 0 1; Build_Alteration 0 1 1];
                     related_constraint_ptrs := [] |} 0 (setup ["x"%string] [2%nat]) in
  reachable m /\ 0 < total_update_counts m /\
  ((bias m == fold_right (fun (c : Z) (r : Q) =>
                 (inject_Z c / inject_Z (total_update_counts m))
                 * (inject_Z c / inject_Z (total_update_counts m)) + r)%Q
                0%Q (concat (update_counts m)))
   /\ (1 / inject_Z (Z.of_nat (number_of_entries m)) <= bias m)%Q /\ (bias m <= 1)%Q).
Proof.
  intros m.
  assert (Hr : reachable m).
  { apply reachable_update; [by apply reachable_setup|].
    repeat constructor; simpl; eexists; reflexivity. }
  assert (HT : 0 < total_update_counts m) by reflexivity.
  split; [exact Hr | split; [exact HT | exact (bias_closed_form_bounds m Hr HT)]].
Defined.

(** Counterexample to C5's open lower bound: the same memory has
    [n = 2] entries and [bias() = 1/2 = 1/n]. *)
Lemma bias_attains_lower_bound :
  let m := update {| alterations := [Build_Alteration 0 0 1; Build_Alteration 0 1 1];
                     related_constraint_ptrs := [] |} 0 (setup ["x"%string] [2%nat]) in
  0 < total_update_counts m /\ number_of_entries m = 2%nat /\
  bias m == (1 # 2)%Q.
Proof. split; [reflexivity | split; [reflexivity | reflexivity]]. Qed.

End MemoryClaims.


Module SolveEntryClaims.
Import SolveEntry.

(** C8: a call of [solve] on a model that is not solved first sets
    [is_solved] and only then runs the search (the search sees a solved
    model with the same body), and a second call of [solve] on the model
    left by the first one, whatever the first search did or whether it
    failed, fails with [AlreadySolved] and leaves the model unchanged. *)
Theorem solve_second_call_already_solved {Body Result : Type}
    (search1 search2 : Model Body -> Body * (SolveError + Result)) (m : Model Body) :
  (is_solved m = false ->
     exists m0, is_solved m0 = true /\ body m0 = body m /\
       solve search1 m = (Build_Model true (fst (search1 m0)), snd (search1 m0))) /\
  solve search2 (fst (solve search1 m)) = (fst (solve search1 m), inl AlreadySolved).
Proof.
  unfold solve. destruct (is_solved m) eqn:E; simpl.
  - split; [discriminate | by rewrite E].
  - destruct (search1 (Build_Model true (body m))) as [b r] eqn:Es. simpl.
    split; [|reflexivity].
    intros _. exists (Build_Model true (body m)). rewrite Es. done.
Qed.

Lemma solve_second_call_already_solved_witness :
  let search (md : Model nat) : nat * (SolveError + unit) := (S (body md), inr tt) in
  is_solved (Build_Model false 0%nat) = false /\
  solve search (fst (solve search (Build_Model false 0%nat)))
    = (fst (solve search (Build_Model false 0%nat)), inl AlreadySolved).
Proof.
  intros search. split; [reflexivity|].
  exact (proj2 (solve_second_call_already_solved search search (Build_Model false 0%nat))).
Defined.

End SolveEntryClaims.


Module SolverLoopClaims.
Import SolverLoop.

(** C2 (amended): in each loop, when the status returned by updating the
    outer holder with the result of the tabu search has the
    global-augmented bit, the counter of loops without update is set to
    zero and no reset is flagged; when the status is zero (nothing was
    updated), the counter is incremented and, if it then equals
    [penalty_coefficient_reset_count_threshold], it is set back to zero
    and the reset is flagged; a flagged reset sets the local penalty
    coefficients equal to the global ones. *)
Theorem not_update_count_and_reset (threshold update_status not_update_count : Z) :
  (Z.land update_status STATUS_GLOBAL_AUGMENTED_INCUMBENT_UPDATE <> 0 ->
     update_not_update_count threshold update_status not_update_count = (0, false)) /\
  (update_status = 0 ->
     update_not_update_count threshold update_status not_update_count
     = if not_update_count + 1 =? threshold then (0, true)
       else (not_update_count + 1, false)) /\
  (forall utility_max master_option EPSILON gap local_is_feasible violations local global,
     snd (update_not_update_count threshold update_status not_update_count) = true ->
     update_local_penalty_coefficients utility_max master_option EPSILON
       (snd (update_not_update_count threshold update_status not_update_count)) gap
       local_is_feasible violations local global = global).
Proof.
  split; [|split].
  - intros H. destruct (Z.eq_dec update_status 0) as [->|Hs]; [done|].
    unfold update_not_update_count. by rewrite (proj2 (Z.eqb_neq _ _) Hs).
  - intros ->. reflexivity.
  - intros ? ? ? ? ? ? ? ? Hf. rewrite Hf. reflexivity.
Qed.

Lemma not_update_count_and_reset_witness :
  update_not_update_count 3 2 1 = (0, false) /\
  update_not_update_count 3 0 2 = (0, true) /\
  update_local_penalty_coefficients (fun _ => 0%Q)
    {| initial_penalty_coefficient := 1; penalty_coefficient_tightening_rate := 1;
       penalty_coefficient_relaxing_rate := 1; penalty_coefficient_updating_balance := 1;
       is_enabled_grouping_penalty_coefficient := false |} 0
    (snd (update_not_update_count 3 0 2)) 0 false [] [[2%Q]] [[1%Q]]
  = [[1%Q]].
Proof.
  split; [|split].
  - apply (proj1 (not_update_count_and_reset 3 2 1)). vm_compute. discriminate.
  - apply (proj1 (proj2 (not_update_count_and_reset 3 0 2))). reflexivity.
  - apply (proj2 (proj2 (not_update_count_and_reset 3 0 2))). reflexivity.
Defined.

(** Counterexample to C2: with threshold 1, a loop without any update
    does not increment the counter (it goes from 0 to 0, with the reset
    flagged), and the counter is reset without a global update. *)
Lemma not_update_count_wraps_at_threshold :
  update_not_update_count 1 0 0 = (0, true).
Proof. reflexivity. Qed.

(** With the logical [&&], a loop that only updated the local augmented
    incumbent (status 1) also clears the counter. *)
Lemma not_update_count_cleared_by_local_update :
  update_not_update_count 5 STATUS_GLOBAL_AUGMENTED_INCUMBENT_UPDATE 3 = (0, false) /\
  update_not_update_count 5 1 3 = (0, false).
Proof. split; reflexivity. Qed.

End SolverLoopClaims.


Module IncumbentClaims.
Import Incumbent.

Lemma double_lt_fin a b : double_lt a b = true -> exists q, a = Fin q.
Proof. destruct a, b; simpl; try discriminate; eauto. Qed.

Lemma double_lt_trans a b c :
  double_lt a b = true -> double_lt b c = true -> double_lt a c = true.
Proof.
  destruct a as [x| |], b as [y| |], c as [z| |]; simpl; try discriminate; auto.
  rewrite !negb_true_iff, <- !not_true_iff_false, !Qle_bool_iff.
  intros H1 H2 H3. apply H1. apply Qnot_le_lt in H2.
  apply Qlt_le_weak. eapply Qlt_le_trans; [exact H2 | exact H3].
Qed.

Lemma double_le_refl a : double_le a a.
Proof. by left. Qed.

Lemma double_le_trans a b c : double_le a b -> double_le b c -> double_le a c.
Proof.
  intros [->|H1] [->|H2]; [by left | by right | by right |].
  right. eapply double_lt_trans; eauto.
Qed.

Section Facts.
Variable Solution : Type.
Implicit Types (h : IncumbentHolder Solution) (sol : Solution) (sc : SolutionScore).

(** One call of [try_update_incumbent], field by field. *)
Lemma try_update_fields h sol sc :
  let h' := try_update_step h (sol, sc) in
  (if double_lt (local_augmented_objective sc) (m_local_augmented_incumbent_objective h)
   then m_local_augmented_incumbent_objective h' = local_augmented_objective sc /\
        m_local_augmented_incumbent_solution h' = sol
   else m_local_augmented_incumbent_objective h' = m_local_augmented_incumbent_objective h /\
        m_local_augmented_incumbent_solution h' = m_local_augmented_incumbent_solution h) /\
  (if double_lt (global_augmented_objective sc) (m_global_augmented_incumbent_objective h)
   then m_global_augmented_incumbent_objective h' = global_augmented_objective sc /\
        m_global_augmented_incumbent_solution h' = sol
   else m_global_augmented_incumbent_objective h' = m_global_augmented_incumbent_objective h /\
        m_global_augmented_incumbent_solution h' = m_global_augmented_incumbent_solution h) /\
  (if is_feasible sc && double_lt (objective sc) (m_feasible_incumbent_objective h)
   then m_feasible_incumbent_objective h' = objective sc /\
        m_feasible_incumbent_solution h' = sol
   else m_feasible_incumbent_objective h' = m_feasible_incumbent_objective h /\
        m_feasible_incumbent_solution h' = m_feasible_incumbent_solution h) /\
  m_found_feasible_solution h' = m_found_feasible_solution h || is_feasible sc.
Proof.
  unfold try_update_step, try_update_incumbent. simpl.
  destruct (double_lt (local_augmented_objective sc) _) eqn:E1;
  destruct (double_lt (global_augmented_objective sc) _) eqn:E2;
  destruct (is_feasible sc) eqn:E3; simpl;
  try (destruct (double_lt (objective sc) _) eqn:E4); simpl;
  repeat split; try done; by destruct (m_found_feasible_solution h).
Qed.

Lemma try_update_le h p :
  double_le (m_local_augmented_incumbent_objective (try_update_step h p))
            (m_local_augmented_incumbent_objective h) /\
  double_le (m_global_augmented_incumbent_objective (try_update_step h p))
            (m_global_augmented_incumbent_objective h) /\
  double_le (m_feasible_incumbent_objective (try_update_step h p))
            (m_feasible_incumbent_objective h).
Proof.
  destruct p as [sol sc].
  destruct (try_update_fields h sol sc) as [F1 [F2 [F3 _]]].
  repeat split.
  - revert F1. destruct (double_lt (local_augmented_objective sc)
                        (m_local_augmented_incumbent_objective h)) eqn:E;
      intros [-> _]; [by right | by left].
  - revert F2. destruct (double_lt (global_augmented_objective sc)
                        (m_global_augmented_incumbent_objective h)) eqn:E;
      intros [-> _]; [by right | by left].
  - revert F3; destruct (is_feasible sc && _) eqn:E; intros [-> _]; [|by left].
    apply andb_true_iff in E as [_ E]. by right.
Qed.

Lemma states_head h xs : states h xs !! 0%nat = Some h.
Proof. by destruct xs. Qed.

Lemma states_le h xs : forall i j hi hj, (i <= j)%nat ->
  states h xs !! i = Some hi -> states h xs !! j = Some hj ->
  double_le (m_global_augmented_incumbent_objective hj) (m_global_augmented_incumbent_objective hi) /\
  double_le (m_feasible_incumbent_objective hj) (m_feasible_incumbent_objective hi).
Proof.
  revert h. induction xs as [|p xs IH]; intros h i j hi hj Hij Hi Hj.
  - destruct i, j; simpl in *; try discriminate; try lia.
    injection Hi as <-; injection Hj as <-. split; apply double_le_refl.
  - destruct i as [|i], j as [|j]; simpl in Hi, Hj; try lia.
    + injection Hi as <-; injection Hj as <-. split; apply double_le_refl.
    + injection Hi as <-.
      destruct (IH (try_update_step h p) 0%nat j _ hj ltac:(lia)
                   (states_head _ _) Hj) as [G1 G2].
      destruct (try_update_le h p) as [_ [L2 L3]].
      split; eapply double_le_trans; eauto.
    + apply (IH (try_update_step h p) i j hi hj); [lia | exact Hi | exact Hj].
Qed.

Lemma states_succ h xs : forall k hk p,
  states h xs !! k = Some hk -> xs !! k = Some p ->
  states h xs !! S k = Some (try_update_step hk p).
Proof.
  revert h. induction xs as [|q xs IH]; intros h [|k] hk p Hk Hp; simpl in *; try discriminate.
  - injection Hk as <-; injection Hp as ->. apply states_head.
  - eapply IH; eauto.
Qed.

Lemma is_finite_fin d : is_finite d = true -> exists q, d = Fin q.
Proof. destruct d; simpl; try discriminate; eauto. Qed.

Lemma holder_inv_initialize h : holder_inv (initialize h) [].
Proof.
  unfold holder_inv, initialize; simpl.
  repeat split; try discriminate; try done.
Qed.

Lemma holder_inv_step h seen p :
  holder_inv h seen -> finite_score p -> holder_inv (try_update_step h p) (seen ++ [p]).
Proof.
  destruct p as [sol sc].
  intros [I1 [I2 [I3 [I4 [I5 [I6 I7]]]]]] [Fo Fg]. simpl in Fo, Fg.
  destruct (try_update_fields h sol sc) as [F1 [F2 [F3 F4]]].
  apply is_finite_fin in Fo as [qo Eo]. apply is_finite_fin in Fg as [qg Eg].
  assert (Hin : (sol, sc) ∈ seen ++ [(sol, sc)]).
  { apply elem_of_app. right. by apply list_elem_of_singleton. }
  assert (Hsub : forall q, q ∈ seen -> q ∈ seen ++ [(sol, sc)]).
  { intros q Hq. apply elem_of_app. by left. }
  repeat split.
  - rewrite F4, I1, existsb_app. simpl. by rewrite orb_false_r.
  - rewrite F4. intros Hf. revert F3.
    destruct (is_feasible sc && double_lt (objective sc) (m_feasible_incumbent_objective h)) eqn:E;
      intros [-> _].
    + by rewrite Eo.
    + destruct (m_found_feasible_solution h) eqn:Ef; [by apply I2|].
      simpl in Hf. rewrite Hf in E. simpl in E. rewrite Eo in E.
      destruct (m_feasible_incumbent_objective h); simpl in *; try done.
  - revert F3; destruct (is_feasible sc && double_lt (objective sc) (m_feasible_incumbent_objective h)) eqn:E;
      intros [-> ->]; intros Hf.
    + apply andb_true_iff in E as [E _]. exists (sol, sc). done.
    + destruct (I3 Hf) as [q [Hq [Hq1 Hq2]]]. exists q. split; [by apply Hsub | done].
  - revert F2; destruct (double_lt (global_augmented_objective sc) _) eqn:E;
      intros [-> ->]; intros Hf.
    + exists (sol, sc). done.
    + destruct (I4 Hf) as [q [Hq Hq1]]. exists q. split; [by apply Hsub | done].
  - intros _. revert F2; destruct (double_lt (global_augmented_objective sc) _) eqn:E;
      intros [-> _].
    + by rewrite Eg.
    + rewrite Eg in E. destruct (m_global_augmented_incumbent_objective h); simpl in *; done.
  - revert F3; destruct (is_feasible sc && double_lt (objective sc) (m_feasible_incumbent_objective h)) eqn:E;
      intros [-> _]; [by rewrite Eo | done].
  - revert F2; destruct (double_lt (global_augmented_objective sc) _) eqn:E;
      intros [-> _]; [by rewrite Eg | done].
Qed.

Lemma holder_inv_run xs : forall h seen,
  holder_inv h seen -> Forall finite_score xs -> holder_inv (run h xs) (seen ++ xs).
Proof.
  induction xs as [|p xs IH]; intros h seen Hi Hf; simpl.
  - by rewrite app_nil_r.
  - inversion Hf as [|? ? Hp Hxs]; subst.
    replace (seen ++ p :: xs) with ((seen ++ [p]) ++ xs) by by rewrite <- app_assoc.
    apply IH; [by apply holder_inv_step | done].
Qed.

End Facts.


(** C6: along every sequence of [try_update_incumbent] calls after
    [initialize()], the global augmented and the feasible incumbent
    objectives are non-increasing (a later value is equal to or strictly
    below an earlier one); and at each call, each of the three stored
    objectives changes only to the presented score's corresponding
    objective, when that one is strictly smaller (and, for the feasible
    one, the score is feasible). *)
Theorem incumbent_objectives_nonincreasing {Solution : Type}
    (h0 : IncumbentHolder Solution) (xs : list (Solution * SolutionScore)) :
  let hs := states (initialize h0) xs in
  (forall i j hi hj, (i <= j)%nat -> hs !! i = Some hi -> hs !! j = Some hj ->
     double_le (global_augmented_incumbent_objective hj) (global_augmented_incumbent_objective hi) /\
     double_le (feasible_incumbent_objective hj) (feasible_incumbent_objective hi)) /\
  (forall k hk sol sc, hs !! k = Some hk -> xs !! k = Some (sol, sc) ->
     exists hk', hs !! S k = Some hk' /\
     (local_augmented_incumbent_objective hk' <> local_augmented_incumbent_objective hk ->
        double_lt (local_augmented_objective sc) (local_augmented_incumbent_objective hk) = true /\
        local_augmented_incumbent_objective hk' = local_augmented_objective sc) /\
     (global_augmented_incumbent_objective hk' <> global_augmented_incumbent_objective hk ->
        double_lt (global_augmented_objective sc) (global_augmented_incumbent_objective hk) = true /\
        global_augmented_incumbent_objective hk' = global_augmented_objective sc) /\
     (feasible_incumbent_objective hk' <> feasible_incumbent_objective hk ->
        is_feasible sc = true /\
        double_lt (objective sc) (feasible_incumbent_objective hk) = true /\
        feasible_incumbent_objective hk' = objective sc)).
Proof.
  intros hs. split.
  - intros i j hi hj Hij Hi Hj. eapply states_le; eauto.
  - intros k hk sol sc Hk Hp.
    exists (try_update_step hk (sol, sc)). split; [eapply states_succ; eauto|].
    destruct (try_update_fields _ hk sol sc) as [F1 [F2 [F3 _]]].
    unfold local_augmented_incumbent_objective, global_augmented_incumbent_objective,
      feasible_incumbent_objective.
    set (L := double_lt (local_augmented_objective sc) (m_local_augmented_incumbent_objective hk)) in *.
    set (G := double_lt (global_augmented_objective sc) (m_global_augmented_incumbent_objective hk)) in *.
    set (Fe := is_feasible sc && double_lt (objective sc) (m_feasible_incumbent_objective hk)) in *.
    split; [|split].
    + revert F1. destruct L eqn:E; intros [-> _]; intros H; [split; done | done].
    + revert F2. destruct G eqn:E; intros [-> _]; intros H; [split; done | done].
    + revert F3. destruct Fe eqn:E; intros [-> _]; intros H; [|done].
      subst Fe. apply andb_true_iff in E as [E1 E2]. done.
Qed.

Lemma incumbent_objectives_nonincreasing_witness :
  double_le (global_augmented_incumbent_objective (run (initialize sample_holder) sample_calls))
            (global_augmented_incumbent_objective (initialize sample_holder)) /\
  double_le (feasible_incumbent_objective (run (initialize sample_holder) sample_calls))
            (feasible_incumbent_objective (initialize sample_holder)).
Proof.
  apply (proj1 (incumbent_objectives_nonincreasing sample_holder sample_calls) 0%nat 3%nat);
    [lia | reflexivity | reflexivity].
Defined.



End IncumbentClaims.


Module PenaltyClaims.
Import SolverLoop.

Lemma lookup_map_Q {A B} (f : A -> B) (l : list A) i : map f l !! i = f <$> l !! i.
Proof. revert i; induction l as [|x l IH]; intros [|i]; simpl; auto. Qed.

Lemma violation_totals_row (row : list Q) : forall tp tsq,
  let r := fold_left (fun '(total_penalty, total_squared_violation) (element : Q) =>
                        (total_penalty + element,
                         total_squared_violation + element * element)%Q) row (tp, tsq) in
  fst r == tp + Qsum row /\ snd r == tsq + Qsum (map (fun e => e * e)%Q row).
Proof.
  induction row as [|e row IH]; intros tp tsq; simpl.
  - split; ring.
  - destruct (IH (tp + e)%Q (tsq + e * e)%Q) as [H1 H2]. split.
    + rewrite H1. ring.
    + rewrite H2. ring.
Qed.

Lemma Qsum_acc (l : list Q) : forall c, fold_right Qplus c l == c + Qsum l.
Proof. induction l as [|x l IH]; intros c; simpl; [ring | rewrite IH; ring]. Qed.

Lemma Qsum_app (l1 l2 : list Q) : Qsum (l1 ++ l2) == Qsum l1 + Qsum l2.
Proof.
  unfold Qsum at 1. rewrite fold_right_app, Qsum_acc. unfold Qsum. ring.
Qed.

Lemma violation_totals_rows (rows : list (list Q)) : forall tp tsq,
  let r := fold_left
    (fun acc row =>
       fold_left (fun '(total_penalty, total_squared_violation) (element : Q) =>
                    (total_penalty + element,
                     total_squared_violation + element * element)%Q) row acc)
    rows (tp, tsq) in
  fst r == tp + Qsum (concat rows) /\
  snd r == tsq + Qsum (map (fun e => e * e)%Q (concat rows)).
Proof.
  induction rows as [|row rows IH]; intros tp tsq; simpl.
  - split; ring.
  - destruct (fold_left _ row (tp, tsq)) as [a b] eqn:Er.
    destruct (violation_totals_row row tp tsq) as [R1 R2]. simpl in R1, R2.
    rewrite Er in R1, R2. simpl in R1, R2.
    destruct (IH a b) as [H1 H2]. split.
    + rewrite H1, R1, Qsum_app. ring.
    + rewrite H2, R2, map_app, Qsum_app. ring.
Qed.

Lemma Qmax_0_pos (gap : Q) : (0 < gap)%Q -> Qmax 0 gap = gap.
Proof. intros H. unfold Qmax, GenericMinMax.gmax. by rewrite (proj1 (Qlt_alt 0 gap) H). Qed.

Lemma Qltb_true a b : Qltb a b = true -> (a < b)%Q.
Proof.
  unfold Qltb. rewrite negb_true_iff, <- not_true_iff_false, Qle_bool_iff.
  apply Qnot_le_lt.
Qed.

(** C3 (amended): when no reset is flagged, [gap > EPSILON >= 0] and the
    local incumbent is infeasible, [total_penalty] is the sum of all
    violation values and [total_squared_violation] the sum of their
    squares; with grouping disabled each local penalty coefficient
    becomes [min(old + tightening_rate * (balance * gap / total_penalty +
    (1 - balance) * gap / total_squared_violation * v), initial)] with [v]
    its constraint's violation (so the increase is cut by the cap); and
    with grouping enabled or not, every new coefficient is at most
    [initial_penalty_coefficient]. *)
Theorem tighten_local_penalty_capped (utility_max : list Q -> Q) (master_option : PenaltyOption)
    (EPSILON gap : Q) (violations local global : list (list Q)) :
  (0 <= EPSILON)%Q -> Qltb EPSILON gap = true ->
  let new := update_local_penalty_coefficients utility_max master_option EPSILON
               false gap false violations local global in
  let total_penalty := fst (violation_totals violations) in
  let total_squared_violation := snd (violation_totals violations) in
  let balance := penalty_coefficient_updating_balance master_option in
  (total_penalty == Qsum (concat violations))%Q /\
  (total_squared_violation == Qsum (map (fun e => e * e)%Q (concat violations)))%Q /\
  (is_enabled_grouping_penalty_coefficient master_option = false ->
   forall j f row old, local !! j = Some row -> row !! f = Some old ->
     (new !! j ≫= fun r => r !! f)
     = Some (Qmin (old + penalty_coefficient_tightening_rate master_option *
                         (balance * (gap / total_penalty) +
                          (1 - balance) * (gap / total_squared_violation *
                                           nth f (nth j violations []) 0)))
                  (initial_penalty_coefficient master_option))%Q) /\
  (forall j f row e, new !! j = Some row -> row !! f = Some e ->
     (e <= initial_penalty_coefficient master_option)%Q).
Proof.
  intros He Hlt new tp tsq balance.
  assert (Hgap : Qmax 0 gap = gap).
  { apply Qmax_0_pos. apply Qltb_true in Hlt. eapply Qle_lt_trans; eauto. }
  destruct (violation_totals_rows violations 0%Q 0%Q) as [T1 T2].
  split; [|split; [|split]].
  - unfold tp, violation_totals. rewrite T1. ring.
  - unfold tsq, violation_totals. rewrite T2. ring.
  - intros Hg j f row old Hj Hf.
    unfold new, update_local_penalty_coefficients. rewrite Hlt. simpl.
    unfold tp, tsq. destruct (violation_totals violations) as [a b]. simpl.
    rewrite list_lookup_imap, Hj. simpl.
    unfold tighten_proxy. rewrite Hg, lookup_map_Q, list_lookup_imap, Hf. simpl.
    by rewrite Hgap.
  - intros j f row e Hj Hf.
    unfold new, update_local_penalty_coefficients in Hj. rewrite Hlt in Hj. simpl in Hj.
    destruct (violation_totals violations) as [a b].
    rewrite list_lookup_imap in Hj.
    destruct (local !! j) as [r|]; simpl in Hj; [|discriminate].
    injection Hj as <-. unfold tighten_proxy in Hf.
    rewrite lookup_map_Q in Hf.
    destruct (_ !! f) as [x|]; simpl in Hf; [|discriminate].
    injection Hf as <-. apply Q.le_min_r.
Qed.

Lemma tighten_local_penalty_capped_witness :
  (update_local_penalty_coefficients (fun _ => 0%Q) sample_option 0 false 1 false
     [[1%Q]] [[1%Q]] [[1%Q]] !! 0%nat ≫= fun r => r !! 0%nat)
  = Some (Qmin (1 + 1 * (1 * (1 / fst (violation_totals [[1%Q]])) +
                          (1 - 1) * (1 / snd (violation_totals [[1%Q]]) * 1))) 1)%Q.
Proof.
  apply (proj1 (proj2 (proj2
    (tighten_local_penalty_capped (fun _ => 0%Q) sample_option 0 1 [[1%Q]] [[1%Q]] [[1%Q]]
       ltac:(discriminate) ltac:(reflexivity)))) eq_refl 0%nat 0%nat [1%Q] 1%Q);
    reflexivity.
Defined.

(** Counterexample to C3: a local coefficient equal to
    [initial_penalty_coefficient] = 1, violation 1 and [gap = 1]: the
    claimed increase is 1, but the coefficient stays 1. *)
Lemma tighten_increase_cut_by_cap :
  update_local_penalty_coefficients (fun _ => 0%Q) sample_option 0 false 1 false
    [[1%Q]] [[1%Q]] [[1%Q]] = [[1%Q]] /\
  ~ (1 == 1 + 1 * (1 * (1 / 1) + (1 - 1) * (1 / 1 * 1)))%Q.
Proof. split; [reflexivity | discriminate]. Qed.

End PenaltyClaims.


Module EvaluationClaims.
Import Evaluation.

(** *** Sums *)

Lemma sum_Q_cons x l : sum_Q (x :: l) = (x + sum_Q l)%Q.
Proof. reflexivity. Qed.

Lemma sum_Q_app l1 l2 : (sum_Q (l1 ++ l2) == sum_Q l1 + sum_Q l2)%Q.
Proof.
  induction l1 as [|x l1 IH]; simpl app; rewrite ?sum_Q_cons.
  - unfold sum_Q at 2. simpl. ring.
  - rewrite IH. ring.
Qed.

Lemma sum_Q_map_ext {A} (f g : A -> Q) (l : list A) :
  (forall a, a ∈ l -> f a = g a) -> sum_Q (map f l) = sum_Q (map g l).
Proof.
  induction l as [|a l IH]; intros H; cbn [map]; [done|].
  rewrite !sum_Q_cons, (H a), IH; [done | | left].
  intros b Hb. apply H. by right.
Qed.

Lemma sum_Q_map_plus {A} (f g h : A -> Q) (l : list A) :
  (forall a, a ∈ l -> f a + g a == h a)%Q ->
  (sum_Q (map f l) + sum_Q (map g l) == sum_Q (map h l))%Q.
Proof.
  induction l as [|a l IH]; intros H; cbn [map].
  - unfold sum_Q. simpl. ring.
  - rewrite !sum_Q_cons. rewrite <- (H a) by left.
    rewrite <- IH; [ring|]. intros b Hb. apply H. by right.
Qed.

Lemma sum_Q_perm (f : nat -> Q) (l1 l2 : list nat) :
  l1 ≡ₚ l2 -> (sum_Q (map f l1) == sum_Q (map f l2))%Q.
Proof.
  induction 1 as [| x l1 l2 _ IH | x y l | l1 l2 l3 _ IH1 _ IH2]; cbn [map];
    rewrite ?sum_Q_cons.
  - reflexivity.
  - rewrite IH. reflexivity.
  - ring.
  - rewrite IH1. exact IH2.
Qed.

Lemma sum_Q_zero (f : nat -> Q) (l : list nat) :
  (forall a, a ∈ l -> f a == 0)%Q -> (sum_Q (map f l) == 0)%Q.
Proof.
  induction l as [|a l IH]; intros H; cbn [map]; [reflexivity|].
  rewrite sum_Q_cons, (H a) by left. rewrite IH; [ring|].
  intros b Hb. apply H. by right.
Qed.

(** A sum over all constraint indices reduces to the sum over a list of
    distinct indices outside of which the terms vanish. *)
Lemma sum_Q_reindex (f : nat -> Q) (n : nat) (R : list nat) :
  NoDup R -> Forall (fun g => (g < n)%nat) R ->
  (forall g, (g < n)%nat -> g ∉ R -> f g == 0)%Q ->
  (sum_Q (map f (seq 0 n)) == sum_Q (map f R))%Q.
Proof.
  intros Hnd Hr Hz.
  assert (Hsub : R ⊆+ seq 0 n).
  { apply NoDup_submseteq; [done|]. intros g Hg. apply elem_of_seq.
    rewrite Forall_forall in Hr. specialize (Hr g Hg). lia. }
  destruct (submseteq_Permutation _ _ Hsub) as [k Hk].
  rewrite (sum_Q_perm f _ _ Hk), map_app, sum_Q_app, (sum_Q_zero f k); [ring|].
  intros g Hg.
  assert (Hnd' : NoDup (R ++ k)) by (rewrite <- Hk; apply NoDup_seq).
  apply NoDup_app in Hnd' as [_ [Hdis _]].
  assert (Hgs : g ∈ seq 0 n) by (rewrite Hk; apply elem_of_app; by right).
  apply elem_of_seq in Hgs.
  apply Hz; [lia|]. intros HgR. exact (Hdis g HgR Hg).
Qed.

Lemma existsb_reindex (t : nat -> bool) (n : nat) (R : list nat) :
  Forall (fun g => (g < n)%nat) R ->
  (forall g, (g < n)%nat -> g ∉ R -> t g = false) ->
  existsb t R = existsb t (seq 0 n).
Proof.
  intros Hr Hz.
  destruct (existsb t (seq 0 n)) eqn:E.
  - apply existsb_exists in E as [g [Hg Hg']].
    apply list_elem_of_In, elem_of_seq in Hg.
    apply existsb_exists. exists g. split; [|done].
    destruct (decide (g ∈ R)) as [HR|HR]; [by apply list_elem_of_In|].
    rewrite Hz in Hg' by (done || lia). discriminate.
  - apply not_true_iff_false. intros H.
    apply existsb_exists in H as [g [Hg Hg']].
    rewrite Forall_forall in Hr. specialize (Hr g (proj2 (list_elem_of_In _ _) Hg)).
    assert (existsb t (seq 0 n) = true) as E'.
    { apply existsb_exists. exists g. split; [|done].
      apply list_elem_of_In, elem_of_seq. lia. }
    congruence.
Qed.

(** *** Comparisons *)

Lemma violation_compat s a b : (a == b)%Q -> (violation s a == violation s b)%Q.
Proof.
  intros H. destruct s; simpl.
  - apply Q.max_compat; [reflexivity | exact H].
  - apply Qabs_wd. exact H.
  - apply Q.max_compat; [reflexivity | rewrite H; reflexivity].
Qed.

Lemma Qltb_compat a a' b b' : (a == a')%Q -> (b == b')%Q -> Qltb a b = Qltb a' b'.
Proof.
  intros Ha Hb. unfold Qltb. f_equal.
  apply eq_true_iff_eq. rewrite !Qle_bool_iff, Ha, Hb. reflexivity.
Qed.

Lemma Qltb_eq a b : (a == b)%Q -> Qltb a b = false.
Proof.
  intros H. unfold Qltb. apply negb_false_iff, Qle_bool_iff. rewrite H. apply Qle_refl.
Qed.

Lemma Qeq_bool_compat a b c : (a == b)%Q -> Qeq_bool a c = Qeq_bool b c.
Proof. intros H. apply eq_true_iff_eq. rewrite !Qeq_bool_iff, H. reflexivity. Qed.

Lemma inject_Z_sub (a b : Z) : inject_Z (a - b) = (inject_Z a - inject_Z b)%Q.
Proof. unfold Z.sub, Qminus. rewrite inject_Z_plus, inject_Z_opp. reflexivity. Qed.

(** *** Expressions *)

Lemma value_of_insert (x : list Z) v a w :
  (v < length x)%nat ->
  value_of (<[v := a]> x) w = if Nat.eqb v w then a else value_of x w.
Proof.
  intros Hv. unfold value_of. destruct (Nat.eqb_spec v w) as [<-|Hne].
  - by rewrite list_lookup_insert_eq.
  - by rewrite list_lookup_insert_ne.
Qed.

Lemma expression_value_insert (cs : list (nat * Q)) c (x : list Z) v a :
  (v < length x)%nat ->
  (expression_value cs c (<[v := a]> x)
   == expression_value cs c x + inject_Z (a - value_of x v) * sensitivity cs v)%Q.
Proof.
  intros Hv. induction cs as [|[w b] cs IH]; simpl; [ring|].
  rewrite IH, value_of_insert by done. rewrite inject_Z_sub.
  destruct (Nat.eqb_spec v w) as [<-|Hne].
  - rewrite Nat.eqb_refl. ring.
  - rewrite (proj2 (Nat.eqb_neq w v)) by congruence. ring.
Qed.

Lemma length_apply_alterations (x : list Z) alts :
  length (apply_alterations x alts) = length x.
Proof.
  revert x. induction alts as [|[v a] alts IH]; intros x; simpl; [done|].
  unfold apply_alterations in *. simpl. by rewrite IH, length_insert.
Qed.

Lemma expression_value_apply (cs : list (nat * Q)) c (alts : list (nat * Z)) :
  forall x, NoDup (map fst alts) -> Forall (fun v => (v < length x)%nat) (map fst alts) ->
  (expression_value cs c (apply_alterations x alts)
   == expression_value cs c x
      + sum_Q (map (fun '(v, value) =>
                      (inject_Z (value - value_of x v) * sensitivity cs v)%Q) alts))%Q.
Proof.
  induction alts as [|[v a] alts IH]; intros x Hnd Hr; cbn [map fst];
    [unfold sum_Q; simpl; ring|].
  apply NoDup_cons in Hnd as [Hv Hnd]. inversion Hr as [|? ? Hvl Hr']; subst.
  change (apply_alterations x ((v, a) :: alts)) with (apply_alterations (<[v := a]> x) alts).
  rewrite IH; [| done | by rewrite length_insert].
  rewrite expression_value_insert by done. rewrite sum_Q_cons.
  rewrite (sum_Q_map_ext _ (fun '(v0, value) =>
             (inject_Z (value - value_of x v0) * sensitivity cs v0)%Q)).
  { ring. }
  intros [w b] Hw. rewrite value_of_insert by done.
  destruct (Nat.eqb_spec v w) as [<-|]; [|done].
  exfalso. apply Hv. apply list_elem_of_In, in_map_iff. exists (v, b).
  split; [done | by apply list_elem_of_In].
Qed.

Lemma sensitivity_not_in (cs : list (nat * Q)) v :
  v ∉ map fst cs -> sensitivity cs v = 0%Q.
Proof.
  induction cs as [|[w b] cs IH]; intros H; [done|].
  change (sensitivity ((w, b) :: cs) v)
    with (if Nat.eqb w v then (b + sensitivity cs v)%Q else sensitivity cs v).
  destruct (Nat.eqb_spec w v) as [->|]; [exfalso; apply H; by left|].
  apply IH. intros Hin. apply H. by right.
Qed.

Lemma expression_delta_unrelated (m : Model) (cs : list (nat * Q)) (alts : list (nat * Z)) :
  (forall v, v ∈ map fst alts -> v ∉ map fst cs) -> (expression_delta m cs alts == 0)%Q.
Proof.
  unfold expression_delta.
  induction alts as [|[v a] alts IH]; intros H; [reflexivity|].
  cbn [map fst]. rewrite sum_Q_cons, sensitivity_not_in.
  - rewrite IH; [ring|]. intros w Hw. apply H. by right.
  - apply H. by left.
Qed.

Lemma existsb_ext_fun {A} (f g : A -> bool) (l : list A) :
  (forall a, f a = g a) -> existsb f l = existsb g l.
Proof. intros H. induction l as [|a l IH]; simpl; [done|]. by rewrite H, IH. Qed.

(** Sums over the enabled constraints: the full sum of [G] is the full sum
    of [F] plus the sum over [R] of [G - F] when [G] and [F] agree outside
    of [R]. *)
Lemma enabled_sum_split (m : Model) (R : list nat) (F G D : nat -> Constraint -> Q) :
  NoDup R -> Forall (fun g => (g < length (constraints m))%nat) R ->
  (forall g c, constraints m !! g = Some c -> D g c == G g c - F g c)%Q ->
  (forall g c, constraints m !! g = Some c -> g ∉ R -> G g c == F g c)%Q ->
  (sum_Q (map (enabled_term m F) (seq 0 (length (constraints m))))
   + sum_Q (map (enabled_term m D) R)
   == sum_Q (map (enabled_term m G) (seq 0 (length (constraints m)))))%Q.
Proof.
  intros Hnd Hr HD HG.
  rewrite <- (sum_Q_reindex (enabled_term m D) _ R Hnd Hr).
  - apply sum_Q_map_plus. intros g _. unfold enabled_term.
    destruct (constraints m !! g) as [c|] eqn:Ec; [|ring].
    destruct (is_enabled c); [rewrite (HD g c Ec); ring | ring].
  - intros g Hg HgR. unfold enabled_term.
    destruct (constraints m !! g) as [c|] eqn:Ec; [|reflexivity].
    destruct (is_enabled c); [|reflexivity]. rewrite (HD g c Ec), (HG g c Ec HgR). ring.
Qed.

Lemma enabled_exists_reindex (m : Model) (R : list nat) (P P' : Constraint -> bool) :
  Forall (fun g => (g < length (constraints m))%nat) R ->
  (forall c, P c = P' c) ->
  (forall g c, constraints m !! g = Some c -> g ∉ R -> P' c = false) ->
  existsb (enabled_test m P) R = existsb (enabled_test m P') (seq 0 (length (constraints m))).
Proof.
  intros Hr HP HP'.
  rewrite <- (existsb_reindex (enabled_test m P') _ R Hr).
  - apply existsb_ext_fun. intros g. unfold enabled_test.
    destruct (constraints m !! g); [by rewrite HP | done].
  - intros g _ HgR. unfold enabled_test.
    destruct (constraints m !! g) as [c|] eqn:Ec; [|done].
    rewrite (HP' g c Ec HgR). apply andb_false_r.
Qed.

(** C1: for every valid move and all (rational) local and global
    penalty-coefficient vectors, the delta form of [evaluate], started
    from the score of the empty move under the same weights, returns a
    score equal field by field to the full form: every number equal as a
    rational, every flag the same. *)
Theorem evaluate_delta_agrees (m : Model) (mv : Move) (local global : list Q) :
  valid_move m mv ->
  score_equiv (evaluate_delta m mv (evaluate_full m empty_move local global) local global)
              (evaluate_full m mv local global).
Proof.
  intros (Hnd & Hvr & Hrnd & Hrr & Hrel).
  set (x' := apply_alterations (variable_values m) (alterations mv)).
  assert (Hval : forall cs c,
    (expression_value cs c x'
     == expression_value cs c (variable_values m) + expression_delta m cs (alterations mv))%Q).
  { intros cs c. unfold expression_delta. by apply expression_value_apply. }
  assert (Hun : forall g c, constraints m !! g = Some c -> g ∉ related_constraints mv ->
    (violation (sense c) (expression_value (coefficients c) (constant_term c) x')
     == violation_value m c)%Q).
  { intros g c Hg HgR. unfold violation_value, constraint_value. apply violation_compat.
    rewrite Hval, expression_delta_unrelated; [ring|].
    intros v Hv Hc. apply HgR. eapply Hrel; eauto. }
  assert (Hnv : forall c,
    (violation (sense c) (constraint_value m c + expression_delta m (coefficients c) (alterations mv))
     == violation (sense c) (expression_value (coefficients c) (constant_term c) x'))%Q).
  { intros c. apply violation_compat. rewrite Hval. reflexivity. }
  assert (Eobj :
    (expression_value (objective_coefficients m) (objective_constant m) (variable_values m)
     + expression_delta m (objective_coefficients m) (alterations mv)
     == expression_value (objective_coefficients m) (objective_constant m) x')%Q).
  { rewrite Hval. reflexivity. }
  assert (Etv :
    (sum_Q (map (enabled_term m (fun _ c =>
        violation (sense c) (expression_value (coefficients c) (constant_term c) (variable_values m))))
             (seq 0 (length (constraints m))))
     + sum_Q (map (enabled_term m (fun _ c =>
        violation (sense c) (constraint_value m c
                             + expression_delta m (coefficients c) (alterations mv))
        - violation_value m c)) (related_constraints mv))
     == sum_Q (map (enabled_term m (fun _ c =>
        violation (sense c) (expression_value (coefficients c) (constant_term c) x')))
             (seq 0 (length (constraints m)))))%Q).
  { apply enabled_sum_split; [done | done | |].
    - intros g c _. rewrite Hnv. unfold violation_value, constraint_value. ring.
    - intros g c Hg HgR. by apply (Hun g c). }
  assert (Ew : forall w,
    (sum_Q (map (enabled_term m (fun g c =>
        weight w g * violation (sense c)
          (expression_value (coefficients c) (constant_term c) (variable_values m))))
             (seq 0 (length (constraints m))))
     + sum_Q (map (enabled_term m (fun g c =>
        weight w g * (violation (sense c) (constraint_value m c
                             + expression_delta m (coefficients c) (alterations mv))
        - violation_value m c))) (related_constraints mv))
     == sum_Q (map (enabled_term m (fun g c =>
        weight w g * violation (sense c) (expression_value (coefficients c) (constant_term c) x')))
             (seq 0 (length (constraints m)))))%Q).
  { intros w. apply enabled_sum_split; [done | done | |].
    - intros g c _. rewrite Hnv. unfold violation_value, constraint_value. ring.
    - intros g c Hg HgR. rewrite (Hun g c) by done. reflexivity. }
  assert (Eimp :
    existsb (enabled_test m (fun c =>
      Qltb (violation (sense c) (constraint_value m c
                                 + expression_delta m (coefficients c) (alterations mv)))
           (violation_value m c))) (related_constraints mv)
    = existsb (enabled_test m (fun c =>
      Qltb (violation (sense c) (expression_value (coefficients c) (constant_term c) x'))
           (violation_value m c))) (seq 0 (length (constraints m)))).
  { apply enabled_exists_reindex; [done | |].
    - intros c. apply Qltb_compat; [apply Hnv | reflexivity].
    - intros g c Hg HgR. apply Qltb_eq. by apply (Hun g c). }
  unfold score_equiv, evaluate_delta, evaluate_full. fold x'. cbv beta zeta.
  cbn [objective total_violation local_penalty global_penalty local_augmented_objective
       global_augmented_objective is_feasible is_objective_improvable
       is_constraint_improvable alterations empty_move apply_alterations fold_left].
  split; [exact Eobj|]. split; [exact Etv|].
  split; [exact (Ew local)|]. split; [exact (Ew global)|].
  split; [rewrite Eobj, (Ew local); reflexivity|].
  split; [rewrite Eobj, (Ew global); reflexivity|].
  split; [apply Qeq_bool_compat, Etv|].
  split; [apply Qltb_compat; [exact Eobj | reflexivity]|].
  exact Eimp.
Qed.

Lemma evaluate_delta_agrees_witness :
  valid_move sample_model sample_move /\
  score_equiv
    (evaluate_delta sample_model sample_move
       (evaluate_full sample_model empty_move [1 # 2; 3%Q] [10%Q; 25 # 2])
       [1 # 2; 3%Q] [10%Q; 25 # 2])
    (evaluate_full sample_model sample_move [1 # 2; 3%Q] [10%Q; 25 # 2]).
Proof.
  assert (Hv : valid_move sample_model sample_move).
  { unfold valid_move; simpl.
    assert (Hnd : NoDup [0%nat; 1%nat]).
    { constructor; [|constructor; [|constructor]];
        intros H; apply list_elem_of_In in H; simpl in H; lia. }
    split; [exact Hnd|]. split; [repeat constructor; simpl; lia|].
    split; [exact Hnd|]. split; [repeat constructor; simpl; lia|].
    intros [|[|g]] c Hg _; simpl in Hg; try discriminate;
      apply list_elem_of_In; simpl; tauto. }
  split; [exact Hv |
          exact (evaluate_delta_agrees sample_model sample_move
                   [1 # 2; 3%Q] [10%Q; 25 # 2] Hv)].
Defined.

End EvaluationClaims.

(* ------------------------------------------------------------------ *)
(** ** Further properties of [AbstractMultiArray] *)

Module MultiArrayExtFacts.
Import Int32 Int32Facts MultiArray MultiArrayFacts MultiArrayClaims MultiArrayExt.

Lemma md_index_loop_inner t : forall s0 idx,
  Forall2 (fun i s => 0 <= i < s) idx (s0 :: t) ->
  0 <= inner_pure 0 idx (suffix_strides t) < s0 * prod t /\
  md_index_loop (inner_pure 0 idx (suffix_strides t)) (suffix_strides t) = idx.
Proof.
  induction t as [|x t IH]; intros s0 idx Hb.
  - inversion Hb as [|i0 ? idx' ? Hi0 Hnil]; subst. inversion Hnil; subst.
    simpl. rewrite Z.quot_1_r. split; [lia | f_equal; lia].
  - inversion Hb as [|i0 ? idx' ? Hi0 Hrest]; subst.
    destruct (IH x idx' Hrest) as [[HJ0 HJ1] HJ].
    cbn [suffix_strides inner_pure md_index_loop].
    set (P := prod (x :: t)) in *.
    assert (EP : P = x * prod t) by reflexivity.
    rewrite inner_pure_shift. set (J := inner_pure 0 idx' (suffix_strides t)) in *.
    assert (HP : 0 < P) by lia.
    split; [simpl in *; nia|].
    rewrite Z.quot_div_nonneg, Z.rem_mod_nonneg by nia.
    replace (0 + i0 * P + J) with (J + i0 * P) by ring.
    rewrite Z.div_add, Z.mod_add, Z.div_small, Z.mod_small by lia.
    rewrite HJ. done.
Qed.

Lemma length_partial_from l : forall acc, length (partial_from acc l) = length l.
Proof. induction l as [|x l IH]; intros acc; simpl; auto. Qed.

Lemma constructed_dims a :
  constructed a -> length (strides a) = number_of_dimensions a /\
                   number_of_dimensions a = length (shape a).
Proof.
  intros [[i H]|[[i [n H]]|[i [sh H]]]].
  - unfold make_scalar in H. simpl in H. injection H as <-. done.
  - unfold make_1d in H. simpl in H. injection H as <-. done.
  - unfold make in H. destruct (compute_strides sh) as [st|] eqn:E; [|done].
    injection H as <-. simpl. split; [|done].
    destruct sh as [|s0 rest]; [done|]. simpl in E. injection E as <-.
    rewrite length_app, length_rev. simpl.
    destruct (rev rest) as [|x xs] eqn:Er; simpl.
    + apply (f_equal (@length Z)) in Er. rewrite length_rev in Er. simpl in Er. lia.
    + rewrite length_partial_from.
      apply (f_equal (@length Z)) in Er. rewrite length_rev in Er. simpl in Er. lia.
Qed.

Lemma update_md_loop_spec strides : forall i remain v,
  length v = (i + length strides)%nat ->
  update_md_loop i remain strides v = take i v ++ md_index_loop remain strides.
Proof.
  induction strides as [|s ss IH]; intros i remain v Hl; simpl in *.
  - rewrite app_nil_r, take_ge by lia. done.
  - rewrite IH by (rewrite length_insert; lia).
    rewrite (take_S_r _ _ (Z.quot remain s)).
    + rewrite take_insert_ge by lia. rewrite <- app_assoc. done.
    + apply list_lookup_insert_eq. lia.
Qed.

Lemma constructed_max_digits a :
  constructed a -> max_digits a = String.length (Decimal.to_string (vector_max (shape a))).
Proof.
  intros [[i H]|[[i [n H]]|[i [sh H]]]].
  - unfold make_scalar in H. simpl in H. injection H as <-. reflexivity.
  - unfold make_1d in H. simpl in H. injection H as <-. reflexivity.
  - unfold make in H. destruct (compute_strides sh); [|done]. injection H as <-. reflexivity.
Qed.

Lemma format_d_length w i :
  (String.length (Decimal.to_string i) <= w)%nat -> String.length (Decimal.format_d w i) = w.
Proof.
  intros H. unfold Decimal.format_d.
  rewrite DecimalFacts.string_length_append, DecimalFacts.spaces_length. lia.
Qed.

Lemma label_loop_length w idx :
  Forall (fun i => String.length (Decimal.format_d w i) = w) idx ->
  String.length (label_loop w idx) = (length idx * w + 2 * (length idx - 1))%nat.
Proof.
  induction 1 as [|i idx Hi Hidx IH]; [done|].
  destruct idx as [|i' idx].
  - simpl. rewrite Hi. lia.
  - change (label_loop w (i :: i' :: idx))
      with (Decimal.format_d w i ++ ", " ++ label_loop w (i' :: idx))%string.
    rewrite !DecimalFacts.string_length_append, Hi, IH. simpl. lia.
Qed.

Lemma elem_le_prod sh : pos_all sh -> Forall (fun s => s <= prod sh) sh.
Proof.
  induction 1 as [|x t Hx Ht IH]; [constructor|].
  pose proof (prod_pos t Ht). simpl. constructor; [nia|].
  eapply Forall_impl; [exact IH|]. intros s Hs. simpl in Hs. nia.
Qed.

(** The indices of an element of a constructed array with positive shape
    are read from its flat index, lie below the shape, and their decimal
    text fits the width [max_digits]. *)
Lemma md_index_fields a k :
  constructed a -> pos_all (shape a) -> prod (shape a) <= INT_MAX ->
  0 <= k < number_of_elements a ->
  length (multi_dimensional_index_of a k) = length (shape a) /\
  Forall (fun i => 0 <= i <= INT_MAX /\
             (String.length (Decimal.to_string i) <= max_digits a)%nat)
         (multi_dimensional_index_of a k).
Proof.
  intros Hc Hpos Hb Hk.
  destruct (md_index_roundtrip a k Hc Hpos Hb Hk) as [_ H2].
  split; [eapply Forall2_length; exact H2|].
  destruct (constructed_strides a Hc Hpos Hb) as [s0 [rest [Hsh _]]].
  assert (Hne : shape a <> []) by (rewrite Hsh; done).
  pose proof (bounded_below_max _ _ _ H2 (vector_max_ge _ Hne)) as Hm.
  assert (HM : vector_max (shape a) <= INT_MAX).
  { pose proof (elem_le_prod _ Hpos) as Hl.
    assert (Hin : vector_max (shape a) ∈ shape a \/ vector_max (shape a) <= prod (shape a)).
    { rewrite Hsh. simpl. right.
      destruct (fold_max_ge rest s0) as [_ _].
      revert Hl. rewrite Hsh. intros Hl.
      assert (G : forall xs x, x <= prod (s0 :: rest) -> Forall (fun s => s <= prod (s0 :: rest)) xs ->
                 fold_left Z.max xs x <= prod (s0 :: rest)).
      { induction xs as [|y xs IHx]; intros x Hx Hxs; simpl; [done|].
        inversion Hxs; subst. apply IHx; [lia | done]. }
      inversion Hl; subst. apply G; done. }
    destruct Hin as [Hin|Hin]; [|lia].
    rewrite Forall_forall in Hl. specialize (Hl _ Hin). lia. }
  eapply Forall_impl; [exact Hm|]. intros i Hi. cbv beta in Hi. split; [lia|].
  rewrite constructed_max_digits by done.
  apply DecimalFacts.to_string_length_mono. lia.
Qed.

(** *** Reading decimal text back *)

Lemma digit_char_value d : 0 <= d < 10 ->
  Z.of_nat (nat_of_ascii (Decimal.digit_char d)) - 48 = d.
Proof.
  intros Hd. unfold Decimal.digit_char.
  rewrite nat_ascii_embedding by lia. lia.
Qed.

Lemma digit_char_not_space d : 0 <= d < 10 -> Decimal.digit_char d <> " "%char.
Proof.
  intros Hd E. apply (f_equal nat_of_ascii) in E. unfold Decimal.digit_char in E.
  rewrite nat_ascii_embedding in E by lia. change (nat_of_ascii " ") with 32%nat in E. lia.
Qed.

Lemma digits_value_dec_go fuel : forall n acc v,
  0 <= n < 10 ^ Z.of_nat fuel ->
  DecimalRead.digits_value (Decimal.dec_go fuel n acc) v =
    DecimalRead.digits_value acc (v * 10 ^ Z.of_nat (Decimal.ndigits fuel n) + n).
Proof.
  induction fuel as [|f IH]; intros n acc v Hn.
  - simpl in *. replace n with 0 by lia. f_equal. lia.
  - rewrite Nat2Z.inj_succ, Z.pow_succ_r in Hn by lia.
    cbn [Decimal.dec_go Decimal.ndigits].
    assert (Hm : 0 <= n mod 10 < 10) by (apply Z.mod_pos_bound; lia).
    destruct (n <? 10) eqn:E.
    + apply Z.ltb_lt in E. simpl. rewrite digit_char_value by done.
      rewrite Z.mod_small by lia. reflexivity.
    + apply Z.ltb_ge in E. rewrite IH.
      * simpl. rewrite digit_char_value by done. f_equal.
        rewrite Nat2Z.inj_succ, Z.pow_succ_r by lia.
        pose proof (Z.div_mod n 10 ltac:(lia)). lia.
      * split; [apply Z.div_pos; lia|]. apply Z.div_lt_upper_bound; lia.
Qed.

Lemma to_string_inj i j : 0 <= i <= INT_MAX -> 0 <= j <= INT_MAX ->
  Decimal.to_string i = Decimal.to_string j -> i = j.
Proof.
  intros Hi Hj E. rewrite !DecimalFacts.to_string_nonneg in E by lia.
  apply (f_equal (fun s => DecimalRead.digits_value s 0)) in E.
  rewrite !digits_value_dec_go in E by (unfold INT_MAX in *; simpl; lia).
  simpl in E. lia.
Qed.

Lemma str_app_empty (s : string) : ("" ++ s)%string = s.
Proof. reflexivity. Qed.

Lemma str_app_cons c (s t : string) : (String c s ++ t)%string = String c (s ++ t).
Proof. reflexivity. Qed.

Lemma dec_go_head fuel : forall n acc, 0 <= n ->
  exists d s, 0 <= d < 10 /\ Decimal.dec_go (S fuel) n acc = String (Decimal.digit_char d) s.
Proof.
  induction fuel as [|f IH]; intros n acc Hn.
  - simpl. destruct (n <? 10); eexists _, _; split; [apply Z.mod_pos_bound; lia | reflexivity
                                                 | apply Z.mod_pos_bound; lia | reflexivity].
  - cbn [Decimal.dec_go]. destruct (n <? 10).
    + eexists _, _. split; [apply Z.mod_pos_bound; lia | reflexivity].
    + apply IH. apply Z.div_pos; lia.
Qed.

Lemma to_string_no_space i : 0 <= i -> ~ DecimalRead.starts_with_space (Decimal.to_string i).
Proof.
  intros Hi. rewrite DecimalFacts.to_string_nonneg by done.
  destruct (dec_go_head 19 i EmptyString Hi) as [d [s [Hd E]]].
  change (Decimal.dec_go 20 i EmptyString) with (Decimal.dec_go (S 19) i EmptyString).
  rewrite E. simpl. apply digit_char_not_space. done.
Qed.

Lemma spaces_app_inj a : forall b s1 s2,
  ~ DecimalRead.starts_with_space s1 -> ~ DecimalRead.starts_with_space s2 ->
  (Decimal.spaces a ++ s1 = Decimal.spaces b ++ s2)%string -> s1 = s2.
Proof.
  induction a as [|a IH]; intros [|b] s1 s2 H1 H2 E; cbn [Decimal.spaces] in E;
    rewrite ?str_app_empty, ?str_app_cons in E.
  - done.
  - exfalso. apply H1. rewrite E. simpl. done.
  - exfalso. apply H2. rewrite <- E. simpl. done.
  - injection E as E. eapply IH; eauto.
Qed.

Lemma format_d_inj w i j : 0 <= i <= INT_MAX -> 0 <= j <= INT_MAX ->
  Decimal.format_d w i = Decimal.format_d w j -> i = j.
Proof.
  intros Hi Hj E. unfold Decimal.format_d in E.
  apply spaces_app_inj in E; [| apply to_string_no_space; lia | apply to_string_no_space; lia].
  apply to_string_inj; done.
Qed.

Lemma string_app_inj (s1 s2 t1 t2 : string) :
  String.length s1 = String.length s2 -> (s1 ++ t1 = s2 ++ t2)%string -> s1 = s2 /\ t1 = t2.
Proof.
  revert s2. induction s1 as [|c s1 IH]; intros [|c' s2] Hl E;
    rewrite ?str_app_empty, ?str_app_cons in E; simpl in Hl; try lia.
  - done.
  - injection E as -> E. destruct (IH s2 ltac:(lia) E) as [-> ->]. done.
Qed.

Lemma label_loop_inj w idx1 : forall idx2,
  length idx1 = length idx2 ->
  Forall (fun i => 0 <= i <= INT_MAX /\ (String.length (Decimal.to_string i) <= w)%nat) idx1 ->
  Forall (fun i => 0 <= i <= INT_MAX /\ (String.length (Decimal.to_string i) <= w)%nat) idx2 ->
  label_loop w idx1 = label_loop w idx2 -> idx1 = idx2.
Proof.
  induction idx1 as [|i idx1 IH]; intros [|j idx2] Hl H1 H2 E; simpl in Hl; try lia; [done|].
  inversion H1 as [|? ? [Hi Hiw] H1']; inversion H2 as [|? ? [Hj Hjw] H2']; subst.
  destruct idx1 as [|i' idx1]; destruct idx2 as [|j' idx2]; simpl in Hl; try lia.
  - simpl in E. f_equal. eapply format_d_inj; eauto.
  - change (label_loop w (i :: i' :: idx1))
      with (Decimal.format_d w i ++ ", " ++ label_loop w (i' :: idx1))%string in E.
    change (label_loop w (j :: j' :: idx2))
      with (Decimal.format_d w j ++ ", " ++ label_loop w (j' :: idx2))%string in E.
    apply string_app_inj in E; [|rewrite !format_d_length by done; done].
    destruct E as [E1 E2]. simpl in E2. injection E2 as E2.
    f_equal; [eapply format_d_inj; eauto|].
    apply IH; [simpl; lia | done | done | done].
Qed.

End MultiArrayExtFacts.

Module MultiArrayExtClaims.
Import Int32 Int32Facts MultiArray MultiArrayFacts MultiArrayClaims MultiArrayExt MultiArrayExtFacts.

(** [multi_dimensional_index] inverts [flat_index]: for a constructed
    array with positive shape whose element count fits in an [int], every
    index vector lying below the shape is read back from its flat
    index. *)
Theorem multi_dimensional_index_flat_index (a : AbstractMultiArray) (idx : list Z) :
  constructed a ->
  Forall (fun s => 0 < s) (shape a) ->
  prod (shape a) <= INT_MAX ->
  Forall2 (fun i s => 0 <= i < s) idx (shape a) ->
  multi_dimensional_index_of a (flat_index_of a idx) = idx.
Proof.
  intros Hc Hpos Hb Hidx.
  destruct (constructed_strides a Hc Hpos Hb) as [s0 [rest [Hsh [Hst _]]]].
  rewrite Hsh in Hidx, Hpos, Hb.
  destruct (md_index_loop_inner rest s0 idx Hidx) as [[H0 H1] H2].
  unfold multi_dimensional_index_of, flat_index_of, multi_dimensional_index, flat_index.
  rewrite Hst. simpl in Hb.
  rewrite inner_product_pure; [exact H2 | lia | | |].
  - eapply bounded_nonneg. exact Hidx.
  - apply suffix_strides_pos. inversion Hpos; done.
  - lia.
Qed.

Lemma multi_dimensional_index_flat_index_witness :
  exists a, make 0 [2; 3] = Some a /\
  multi_dimensional_index_of a (flat_index_of a [1; 2]) = [1; 2].
Proof.
  eexists. split; [reflexivity|].
  apply multi_dimensional_index_flat_index.
  - right. right. exists 0, [2; 3]. reflexivity.
  - simpl. repeat constructor; lia.
  - simpl. unfold INT_MAX. lia.
  - simpl. repeat constructor; lia.
Defined.

(** [update_multi_dimensional_index] writes into a vector of
    [number_of_dimensions] entries exactly the vector that
    [multi_dimensional_index] returns, for every flat index. *)
Theorem update_multi_dimensional_index_agrees (a : AbstractMultiArray) (v : list Z) (k : Z) :
  constructed a ->
  length v = number_of_dimensions a ->
  update_multi_dimensional_index a v k = multi_dimensional_index_of a k.
Proof.
  intros Hc Hl. destruct (constructed_dims a Hc) as [Hd _].
  unfold update_multi_dimensional_index, multi_dimensional_index_of, multi_dimensional_index.
  rewrite update_md_loop_spec by lia. done.
Qed.

Lemma update_multi_dimensional_index_agrees_witness :
  exists a, make 0 [2; 3] = Some a /\
  update_multi_dimensional_index a [7; 7] 5 = multi_dimensional_index_of a 5.
Proof.
  eexists. split; [reflexivity|].
  apply update_multi_dimensional_index_agrees.
  - right. right. exists 0, [2; 3]. reflexivity.
  - reflexivity.
Defined.

(** Every label of an element of a constructed array with positive shape
    (element count within [int]) has the same length: ["["], the [d]
    indices of [max_digits] characters each, [d - 1] separators [", "]
    and ["]"]; an array of a single element has the empty label. *)
Theorem indices_label_length (a : AbstractMultiArray) (k : Z) :
  constructed a ->
  Forall (fun s => 0 < s) (shape a) ->
  prod (shape a) <= INT_MAX ->
  0 <= k < number_of_elements a ->
  (number_of_elements a = 1 -> indices_label a k = EmptyString) /\
  (number_of_elements a <> 1 ->
   String.length (indices_label a k) =
     (2 + number_of_dimensions a * max_digits a + 2 * (number_of_dimensions a - 1))%nat).
Proof.
  intros Hc Hpos Hb Hk. split.
  - intros E. unfold indices_label. rewrite E. done.
  - intros Hne. unfold indices_label. destruct (Z.eqb_spec (number_of_elements a) 1); [done|].
    destruct (md_index_fields a k Hc Hpos Hb Hk) as [Hl Hf].
    destruct (constructed_dims a Hc) as [_ Hd].
    simpl. rewrite !DecimalFacts.string_length_append. simpl.
    rewrite label_loop_length, Hl, Hd; [lia|].
    eapply Forall_impl; [exact Hf|]. intros i [_ Hi]. apply format_d_length. done.
Qed.

Lemma indices_label_length_witness :
  exists a, make 0 [2; 10] = Some a /\
  String.length (indices_label a 13) = (2 + 2 * 2 + 2 * 1)%nat.
Proof.
  eexists. split; [reflexivity|].
  apply (proj2 (indices_label_length _ 13
    ltac:(right; right; exists 0, [2; 10]; reflexivity)
    ltac:(simpl; repeat constructor; lia) ltac:(simpl; unfold INT_MAX; lia)
    ltac:(vm_compute; split; congruence))).
  vm_compute. congruence.
Defined.

(** Distinct elements of a constructed array with positive shape
    (element count within [int]) have distinct labels. *)
Theorem indices_label_injective (a : AbstractMultiArray) (k1 k2 : Z) :
  constructed a ->
  Forall (fun s => 0 < s) (shape a) ->
  prod (shape a) <= INT_MAX ->
  0 <= k1 < number_of_elements a ->
  0 <= k2 < number_of_elements a ->
  indices_label a k1 = indices_label a k2 -> k1 = k2.
Proof.
  intros Hc Hpos Hb Hk1 Hk2 E.
  destruct (Z.eqb_spec (number_of_elements a) 1) as [E1|Hne]; [lia|].
  unfold indices_label in E. rewrite (proj2 (Z.eqb_neq _ _) Hne) in E.
  rewrite !str_app_cons, !str_app_empty in E. injection E as E.
  destruct (md_index_fields a k1 Hc Hpos Hb Hk1) as [Hl1 Hf1].
  destruct (md_index_fields a k2 Hc Hpos Hb Hk2) as [Hl2 Hf2].
  apply string_app_inj in E.
  - destruct E as [E _]. apply label_loop_inj in E; [| lia | done | done].
    destruct (md_index_roundtrip a k1 Hc Hpos Hb Hk1) as [R1 _].
    destruct (md_index_roundtrip a k2 Hc Hpos Hb Hk2) as [R2 _].
    rewrite <- R1, <- R2, E. done.
  - rewrite !label_loop_length, Hl1, Hl2; [done | |];
      (eapply Forall_impl; [eassumption|]); intros i [_ Hi]; apply format_d_length; done.
Qed.

Lemma indices_label_injective_witness :
  exists a, make 0 [2; 10] = Some a /\
  (indices_label a 3 = indices_label a 3 -> 3 = 3).
Proof.
  eexists. split; [reflexivity|].
  apply indices_label_injective.
  - right. right. exists 0, [2; 10]. reflexivity.
  - simpl. repeat constructor; lia.
  - simpl. unfold INT_MAX. lia.
  - vm_compute. split; congruence.
  - vm_compute. split; congruence.
Defined.

(** The three constructors agree: [AbstractMultiArray(a_ID)] is the
    array of shape [{1}], [AbstractMultiArray(a_ID, n)] the array of
    shape [{n}] for every [int] [n]. *)
Theorem constructors_agree (a_ID n : Z) :
  INT_MIN <= n <= INT_MAX ->
  make_scalar a_ID = make a_ID [1] /\
  make_1d a_ID n = make a_ID [n].
Proof.
  intros Hn. split; [reflexivity|].
  unfold make_1d, make. simpl. unfold accumulate_mul. simpl.
  rewrite mul_small by lia. rewrite Z.mul_1_l. done.
Qed.

Lemma constructors_agree_witness :
  make_scalar 3 = make 3 [1] /\ make_1d 3 12 = make 3 [12].
Proof. apply constructors_agree. unfold INT_MIN, INT_MAX. lia. Defined.

End MultiArrayExtClaims.

(* ------------------------------------------------------------------ *)
(** ** Further properties of [Memory] *)

Module MemoryExtFacts.
Import MoveM MemoryM MemoryExt MemoryClaims.

Lemma randomness_spec r W :
  0 < W -> 2 * W <= Int32.INT_MAX -> randomness r W = r mod (2 * W) - W.
Proof.
  intros H0 H1. unfold Int32.INT_MAX in H1.
  unfold randomness, UInt64.wrap.
  rewrite (Z.mod_small (2 * W)), (Z.mod_small W) by lia.
  pose proof (Z.mod_pos_bound r (2 * W) ltac:(lia)) as Hr.
  set (y := r mod (2 * W) - W).
  unfold Int32.wrap.
  rewrite <- Z.add_mod_idemp_l by lia.
  rewrite (Z.mod_mod_divide y (2 ^ 64) (2 ^ 32)) by (exists (2 ^ 32); reflexivity).
  rewrite Z.add_mod_idemp_l by lia.
  rewrite Z.mod_small by (subst y; lia). lia.
Qed.

Lemma entry_some_update_entry {A} (g : A -> A) p f (t : list (list A)) p' f' :
  is_Some (entry t p' f') -> is_Some (entry (update_entry g p f t) p' f').
Proof.
  intros [x Hx]. rewrite entry_update_entry.
  destruct (decide _) as [E|E]; [injection E as -> ->; rewrite Hx; eexists; done | eexists; done].
Qed.

(** One step of the randomised loop and one step of the plain loop. *)
Lemma random_step_fields it W rand m n a :
  let s := update_alteration_random it W rand (m, n) a in
  variable_names (fst s) = variable_names (update_alteration it m a) /\
  update_counts (fst s) = update_counts (update_alteration it m a) /\
  total_update_counts (fst s) = total_update_counts (update_alteration it m a) /\
  last_update_iterations (fst s) =
    update_entry (fun _ => Int32.add it (randomness (rand n) W))
      (alt_proxy_index a) (alt_flat_index a) (last_update_iterations m) /\
  snd s = S n.
Proof. done. Qed.

Lemma random_fold_counts alts : forall it W rand m1 m2 n,
  variable_names m1 = variable_names m2 -> update_counts m1 = update_counts m2 ->
  total_update_counts m1 = total_update_counts m2 ->
  let s := fold_left (update_alteration_random it W rand) alts (m1, n) in
  let m' := fold_left (update_alteration it) alts m2 in
  variable_names (fst s) = variable_names m' /\ update_counts (fst s) = update_counts m' /\
  total_update_counts (fst s) = total_update_counts m' /\
  snd s = (n + length alts)%nat.
Proof.
  induction alts as [|a alts IH]; intros it W rand m1 m2 n H1 H2 H3; cbn [fold_left].
  - split; [done|]. split; [done|]. split; [simpl; done | simpl; lia].
  - replace (update_alteration_random it W rand (m1, n) a)
      with (fst (update_alteration_random it W rand (m1, n) a), S n) by reflexivity.
    destruct (IH it W rand (fst (update_alteration_random it W rand (m1, n) a))
                 (update_alteration it m2 a) (S n)) as [R1 [R2 [R3 R4]]];
      [simpl; congruence .. |].
    split; [done|]. split; [done|]. split; [done|]. rewrite R4. simpl. lia.
Qed.

Lemma random_fold_last alts : forall it W rand m n,
  0 < W -> 2 * W <= Int32.INT_MAX ->
  Int32.INT_MIN <= it - W -> it + W <= Int32.INT_MAX ->
  Forall (valid_alteration m) alts ->
  let s := fold_left (update_alteration_random it W rand) alts (m, n) in
  forall p f,
    ((p, f) ∉ map alt_var alts ->
       entry (last_update_iterations (fst s)) p f = entry (last_update_iterations m) p f) /\
    ((p, f) ∈ map alt_var alts ->
       exists v, entry (last_update_iterations (fst s)) p f = Some v /\
                 it - W <= v < it + W).
Proof.
  induction alts as [|a alts IH]; intros it W rand m n HW HW2 Hlo Hhi Hv s p f; subst s;
    cbn [fold_left].
  - split; [done|]. intros H. inversion H.
  - inversion Hv as [|? ? Ha Hv']; subst.
    replace (update_alteration_random it W rand (m, n) a)
      with (fst (update_alteration_random it W rand (m, n) a), S n) by reflexivity.
    set (m1 := fst (update_alteration_random it W rand (m, n) a)).
    assert (Hv1 : Forall (valid_alteration m1) alts).
    { eapply Forall_impl; [exact Hv'|]. intros b [Hb1 Hb2]. split; simpl;
        apply entry_some_update_entry; done. }
    destruct (IH it W rand m1 (S n) HW HW2 Hlo Hhi Hv1 p f) as [IH1 IH2].
    assert (Hstep : entry (last_update_iterations m1) p f =
       if decide ((alt_proxy_index a, alt_flat_index a) = (p, f))
       then (fun _ => Int32.add it (randomness (rand n) W)) <$>
              entry (last_update_iterations m) (alt_proxy_index a) (alt_flat_index a)
       else entry (last_update_iterations m) p f).
    { subst m1. simpl. apply entry_update_entry. }
    split.
    + intros Hn. rewrite IH1 by (intros Hin; apply Hn; simpl; apply elem_of_cons; right; done).
      rewrite Hstep. rewrite decide_False; [done|].
      intros E. apply Hn. simpl. apply elem_of_cons. left. unfold alt_var. rewrite E. done.
    + intros Hin. destruct (decide ((p, f) ∈ map alt_var alts)) as [Hin'|Hn'];
        [apply IH2; done|].
      rewrite IH1 by done. rewrite Hstep.
      apply elem_of_cons in Hin as [E|E]; [|done].
      unfold alt_var in E. rewrite decide_True by (rewrite E; done).
      destruct Ha as [_ [v Hl]]. rewrite Hl. simpl.
      eexists. split; [reflexivity|].
      rewrite randomness_spec by done.
      pose proof (Z.mod_pos_bound (rand n) (2 * W) ltac:(lia)).
      rewrite Int32Facts.add_small by lia. lia.
Qed.

Lemma map_const_alter {A} (g : A -> A) (K : Z) f (row : list A) :
  map (fun _ => K) (alter g f row) = map (fun _ => K) row.
Proof.
  revert f. induction row as [|x row IH]; intros [|f]; try done.
  change (map (fun _ => K) (x :: alter g f row) = map (fun _ => K) (x :: row)).
  simpl. rewrite IH. done.
Qed.

Lemma map_const_update_entry {A} (g : A -> A) (K : Z) p f (t : list (list A)) :
  map (map (fun _ => K)) (update_entry g p f t) = map (map (fun _ => K)) t.
Proof.
  unfold update_entry. revert p. induction t as [|row t IH]; intros [|p]; try done.
  - change (map (map (fun _ => K)) (alter g f row :: t) = map (map (fun _ => K)) (row :: t)).
    simpl. rewrite map_const_alter. done.
  - change (map (map (fun _ => K)) (row :: alter (alter g f) p t)
            = map (map (fun _ => K)) (row :: t)).
    simpl. rewrite IH. done.
Qed.

Lemma reset_update_fold alts : forall it m,
  map (map (fun _ => INITIAL_LAST_UPDATE_ITERATION))
      (last_update_iterations (fold_left (update_alteration it) alts m)) =
  map (map (fun _ => INITIAL_LAST_UPDATE_ITERATION)) (last_update_iterations m) /\
  map (map (fun _ => INITIAL_LAST_UPDATE_ITERATION))
      (update_counts (fold_left (update_alteration it) alts m)) =
  map (map (fun _ => INITIAL_LAST_UPDATE_ITERATION)) (update_counts m).
Proof.
  induction alts as [|a alts IH]; intros it m; simpl; [done|].
  destruct (IH it (update_alteration it m a)) as [H1 H2]. rewrite H1, H2.
  simpl. rewrite !map_const_update_entry. done.
Qed.

Lemma reset_random_fold alts : forall it W rand m n,
  map (map (fun _ => INITIAL_LAST_UPDATE_ITERATION))
      (last_update_iterations (fst (fold_left (update_alteration_random it W rand) alts (m, n)))) =
  map (map (fun _ => INITIAL_LAST_UPDATE_ITERATION)) (last_update_iterations m).
Proof.
  induction alts as [|a alts IH]; intros it W rand m n; cbn [fold_left]; [done|].
  replace (update_alteration_random it W rand (m, n) a)
    with (fst (update_alteration_random it W rand (m, n) a), S n) by reflexivity.
  rewrite IH. simpl. rewrite map_const_update_entry. done.
Qed.

Lemma map_const_replicate (K : Z) {A} (row : list A) :
  map (fun _ => K) row = replicate (length row) K.
Proof. induction row; simpl; [done | rewrite IHrow; done]. Qed.

End MemoryExtFacts.

Module MemoryExtClaims.
Import MoveM MemoryM MemoryExt MemoryClaims MemoryExtFacts.



(** [reset_last_update_iterations()] brings the short-term memory of
    every memory a solve can hold back to its state right after
    [setup]: [INITIAL_LAST_UPDATE_ITERATION] for every variable, the
    update counts and their total kept; an update made before the reset,
    plain or randomised, leaves no trace in the short-term memory. *)
Theorem reset_last_update_iterations_spec (m : Memory) (mv : Move) (it W : Z)
    (rand : nat -> Z) (n : nat) :
  reachable m ->
  last_update_iterations (reset_last_update_iterations m) =
    map (fun row => replicate (length row) INITIAL_LAST_UPDATE_ITERATION) (update_counts m) /\
  update_counts (reset_last_update_iterations m) = update_counts m /\
  total_update_counts (reset_last_update_iterations m) = total_update_counts m /\
  last_update_iterations (reset_last_update_iterations (update mv it m)) =
    last_update_iterations (reset_last_update_iterations m) /\
  last_update_iterations
    (reset_last_update_iterations (fst (update_random mv it W rand (m, n)))) =
    last_update_iterations (reset_last_update_iterations m).
Proof.
  intros Hr. split; [|split; [done | split; [done|]]].
  - simpl. induction Hr as [names sizes Hlen | m mv' it' Hr IH Hv].
    + simpl. rewrite !map_map. apply map_ext. intros k.
      rewrite map_const_replicate, !length_replicate. done.
    + unfold update. destruct (reset_update_fold (alterations mv') it' m) as [H1 H2].
      rewrite H1, IH.
      transitivity (map (map (fun _ => INITIAL_LAST_UPDATE_ITERATION)) (update_counts m)).
      * apply map_ext. intros row. rewrite map_const_replicate. done.
      * rewrite <- H2. apply map_ext. intros row. rewrite map_const_replicate. done.
  - split.
    + simpl. unfold update. apply reset_update_fold.
    + simpl. unfold update_random. destruct (W =? 0); simpl.
      * unfold update. apply reset_update_fold.
      * apply reset_random_fold.
Qed.

Lemma reset_last_update_iterations_spec_witness :
  let m := update {| alterations := [Build_Alteration 0 1 1];
                     related_constraint_ptrs := [] |} 4 (setup ["x"%string] [2%nat]) in
  last_update_iterations (reset_last_update_iterations m) =
    [replicate 2 INITIAL_LAST_UPDATE_ITERATION].
Proof.
  intros m.
  destruct (reset_last_update_iterations_spec m
              {| alterations := []; related_constraint_ptrs := [] |} 0 0 (fun _ => 0) 0)
    as [H _].
  - constructor; [|repeat constructor; eexists; reflexivity].
    constructor. reflexivity.
  - rewrite H. reflexivity.
Defined.

End MemoryExtClaims.

(* ------------------------------------------------------------------ *)
(** ** Further properties of [IncumbentHolder] *)

Module IncumbentExtFacts.
Import Incumbent IncumbentExt.

Lemma try_update_status_sum {Solution} (h : IncumbentHolder Solution) s sc :
  fst (try_update_incumbent h s sc) =
    (if double_lt (local_augmented_objective sc) (m_local_augmented_incumbent_objective h)
     then 1 else 0) +
    (if double_lt (global_augmented_objective sc) (m_global_augmented_incumbent_objective h)
     then 2 else 0) +
    (if is_feasible sc && double_lt (objective sc) (m_feasible_incumbent_objective h)
     then 4 else 0).
Proof.
  unfold try_update_incumbent.
  destruct (double_lt (local_augmented_objective sc) _);
  destruct (double_lt (global_augmented_objective sc) _); simpl;
  destruct (is_feasible sc); simpl;
  try destruct (double_lt (objective sc) _); reflexivity.
Qed.

Lemma table_marks_status (b1 b2 b3 : bool) :
  table_marks ((if b1 then 1 else 0) + (if b2 then 2 else 0) + (if b3 then 4 else 0)) =
    ((if b3 then "*" else if b2 then "!" else " ")%char,
     (if b2 then "!" else " ")%char,
     (if b3 then "*" else " ")%char).
Proof. destruct b1, b2, b3; reflexivity. Qed.

End IncumbentExtFacts.

Module IncumbentExtClaims.
Import Incumbent IncumbentExt IncumbentExtFacts.

(** The status returned by [try_update_incumbent] carries one bit per
    incumbent: bit 0 is set exactly when the local augmented incumbent
    is replaced, bit 1 exactly when the global augmented incumbent is
    replaced, bit 2 exactly when the score is feasible and the feasible
    incumbent is replaced; the status lies in [0, 7]. *)
Theorem try_update_incumbent_status_bits {Solution} (h : IncumbentHolder Solution) s sc :
  let status := fst (try_update_incumbent h s sc) in
  Z.testbit status 0 =
    double_lt (local_augmented_objective sc) (m_local_augmented_incumbent_objective h) /\
  Z.testbit status 1 =
    double_lt (global_augmented_objective sc) (m_global_augmented_incumbent_objective h) /\
  Z.testbit status 2 =
    (is_feasible sc && double_lt (objective sc) (m_feasible_incumbent_objective h)) /\
  0 <= status <= 7.
Proof.
  intros status. subst status. rewrite try_update_status_sum.
  destruct (double_lt (local_augmented_objective sc) _),
           (double_lt (global_augmented_objective sc) _),
           (is_feasible sc && double_lt (objective sc) _); vm_compute; repeat split; discriminate.
Qed.

(** The overload [try_update_incumbent(a_model, a_SCORE)] returns the
    same status and leaves the holder in the same state as
    [try_update_incumbent(a_model->export_solution(), a_SCORE)]; it
    calls [export_solution] once when some incumbent is replaced and
    never otherwise. *)
Theorem try_update_incumbent_model_agrees {Solution} (default_solution exported : Solution)
    (h : IncumbentHolder Solution) sc :
  let '(status, h', calls) := try_update_incumbent_model default_solution exported h sc in
  (status, h') = try_update_incumbent h exported sc /\
  calls = (if Z.eqb status 0 then 0%nat else 1%nat).
Proof.
  unfold try_update_incumbent_model, try_update_incumbent.
  destruct (double_lt (local_augmented_objective sc) _);
  destruct (double_lt (global_augmented_objective sc) _); simpl;
  destruct (is_feasible sc); simpl;
  try destruct (double_lt (objective sc) _); simpl; split; reflexivity.
Qed.

(** After [reset_local_augmented_incumbent()], the next call with a
    finite local augmented objective replaces the local augmented
    incumbent whatever its previous value; the global augmented and
    feasible incumbents and the rest of the status are as without the
    reset. *)
Theorem reset_local_augmented_incumbent_next {Solution} (h : IncumbentHolder Solution) s sc :
  is_finite (local_augmented_objective sc) = true ->
  let '(st1, h1) := try_update_incumbent (reset_local_augmented_incumbent h) s sc in
  let '(st0, h0) := try_update_incumbent h s sc in
  st1 = Z.lor st0 1 /\
  m_local_augmented_incumbent_solution h1 = s /\
  m_local_augmented_incumbent_objective h1 = local_augmented_objective sc /\
  m_global_augmented_incumbent_solution h1 = m_global_augmented_incumbent_solution h0 /\
  m_global_augmented_incumbent_objective h1 = m_global_augmented_incumbent_objective h0 /\
  m_feasible_incumbent_solution h1 = m_feasible_incumbent_solution h0 /\
  m_feasible_incumbent_objective h1 = m_feasible_incumbent_objective h0 /\
  m_found_feasible_solution h1 = m_found_feasible_solution h0.
Proof.
  intros Hf.
  pose proof (try_update_status_sum (reset_local_augmented_incumbent h) s sc) as S1.
  pose proof (try_update_status_sum h s sc) as S0.
  pose proof (IncumbentClaims.try_update_fields Solution (reset_local_augmented_incumbent h) s sc) as F1.
  pose proof (IncumbentClaims.try_update_fields Solution h s sc) as F0.
  unfold try_update_step in F1, F0. cbn [fst snd] in F1, F0.
  destruct (try_update_incumbent (reset_local_augmented_incumbent h) s sc) as [st1 h1].
  destruct (try_update_incumbent h s sc) as [st0 h0]. cbn [fst snd] in *.
  change (m_local_augmented_incumbent_objective (reset_local_augmented_incumbent h))
    with DEFAULT_OBJECTIVE in *.
  change (m_global_augmented_incumbent_objective (reset_local_augmented_incumbent h))
    with (m_global_augmented_incumbent_objective h) in *.
  change (m_global_augmented_incumbent_solution (reset_local_augmented_incumbent h))
    with (m_global_augmented_incumbent_solution h) in *.
  change (m_feasible_incumbent_objective (reset_local_augmented_incumbent h))
    with (m_feasible_incumbent_objective h) in *.
  change (m_feasible_incumbent_solution (reset_local_augmented_incumbent h))
    with (m_feasible_incumbent_solution h) in *.
  change (m_found_feasible_solution (reset_local_augmented_incumbent h))
    with (m_found_feasible_solution h) in *.
  destruct (local_augmented_objective sc) as [q| |]; try discriminate.
  change (double_lt (Fin q) DEFAULT_OBJECTIVE) with true in *.
  destruct F1 as [[L1 L1s] [G1 [P1 D1]]], F0 as [_ [G0 [P0 D0]]].
  destruct (double_lt (Fin q) (m_local_augmented_incumbent_objective h)),
           (double_lt (global_augmented_objective sc) (m_global_augmented_incumbent_objective h)),
           (is_feasible sc && double_lt (objective sc) (m_feasible_incumbent_objective h));
    subst st1 st0; destruct G1, G0, P1, P0;
    (split; [reflexivity|]); repeat split; congruence.
Qed.

Lemma reset_local_augmented_incumbent_next_witness :
  let '(st1, h1) :=
    try_update_incumbent (reset_local_augmented_incumbent sample_holder) 5%nat (sample_score 3 3 false) in
  let '(st0, h0) := try_update_incumbent sample_holder 5%nat (sample_score 3 3 false) in
  st1 = Z.lor st0 1 /\
  m_local_augmented_incumbent_solution h1 = 5%nat /\
  m_local_augmented_incumbent_objective h1 = local_augmented_objective (sample_score 3 3 false) /\
  m_global_augmented_incumbent_solution h1 = m_global_augmented_incumbent_solution h0 /\
  m_global_augmented_incumbent_objective h1 = m_global_augmented_incumbent_objective h0 /\
  m_feasible_incumbent_solution h1 = m_feasible_incumbent_solution h0 /\
  m_feasible_incumbent_objective h1 = m_feasible_incumbent_objective h0 /\
  m_found_feasible_solution h1 = m_found_feasible_solution h0.
Proof. apply reset_local_augmented_incumbent_next. reflexivity. Defined.

(** The first call after [initialize()] with finite objectives replaces
    every incumbent it can: it returns 3 for an infeasible score and 7
    for a feasible one, and stores the solution as the local and global
    augmented incumbent, and also as the feasible incumbent when the
    score is feasible. *)
Theorem try_update_incumbent_after_initialize {Solution} (h : IncumbentHolder Solution) s sc :
  is_finite (local_augmented_objective sc) = true ->
  is_finite (global_augmented_objective sc) = true ->
  (is_feasible sc = true -> is_finite (objective sc) = true) ->
  let '(status, h') := try_update_incumbent (initialize h) s sc in
  status = (if is_feasible sc then 7 else 3) /\
  m_local_augmented_incumbent_solution h' = s /\
  m_global_augmented_incumbent_solution h' = s /\
  m_found_feasible_solution h' = is_feasible sc /\
  (is_feasible sc = true -> m_feasible_incumbent_solution h' = s /\
                            m_feasible_incumbent_objective h' = objective sc).
Proof.
  intros Hl Hg Ho.
  pose proof (try_update_status_sum (initialize h) s sc) as S0.
  pose proof (IncumbentClaims.try_update_fields Solution (initialize h) s sc) as F0.
  unfold try_update_step in F0. cbn [fst snd] in F0.
  destruct (try_update_incumbent (initialize h) s sc) as [st h']. cbn [fst snd] in *.
  change (m_local_augmented_incumbent_objective (initialize h)) with DEFAULT_OBJECTIVE in *.
  change (m_global_augmented_incumbent_objective (initialize h)) with DEFAULT_OBJECTIVE in *.
  change (m_feasible_incumbent_objective (initialize h)) with DEFAULT_OBJECTIVE in *.
  change (m_found_feasible_solution (initialize h)) with false in *.
  destruct (local_augmented_objective sc) as [ql| |]; try discriminate.
  destruct (global_augmented_objective sc) as [qg| |]; try discriminate.
  change (double_lt (Fin ql) DEFAULT_OBJECTIVE) with true in *.
  change (double_lt (Fin qg) DEFAULT_OBJECTIVE) with true in *.
  destruct F0 as [[_ L] [[_ G] [P D]]].
  destruct (is_feasible sc).
  - destruct (objective sc) as [qo| |]; [|discriminate (Ho eq_refl) ..].
    change (double_lt (Fin qo) DEFAULT_OBJECTIVE) with true in *.
    destruct P as [P1 P2]. subst st. repeat split; done.
  - subst st. repeat split; try done.
Qed.

Lemma try_update_incumbent_after_initialize_witness :
  let '(status, h') := try_update_incumbent (initialize sample_holder) 8%nat (sample_score 2 6 true) in
  status = 7 /\
  m_local_augmented_incumbent_solution h' = 8%nat /\
  m_global_augmented_incumbent_solution h' = 8%nat /\
  m_found_feasible_solution h' = true /\
  (true = true -> m_feasible_incumbent_solution h' = 8%nat /\
                  m_feasible_incumbent_objective h' = Fin (inject_Z 2)).
Proof.
  apply (try_update_incumbent_after_initialize sample_holder 8%nat (sample_score 2 6 true));
    reflexivity.
Defined.

(** The marks printed by [print_table_body] for a status returned by
    [try_update_incumbent]: the feasible and current columns show ["*"]
    when the feasible incumbent was replaced; otherwise the current
    column shows ["!"] when the global augmented incumbent was replaced
    (the global column shows ["!"] then in every case); a local update
    alone leaves all three blank. *)
Theorem print_table_body_marks {Solution} (h : IncumbentHolder Solution) s sc :
  let g := double_lt (global_augmented_objective sc) (m_global_augmented_incumbent_objective h) in
  let f := is_feasible sc && double_lt (objective sc) (m_feasible_incumbent_objective h) in
  table_marks (fst (try_update_incumbent h s sc)) =
    ((if f then "*" else if g then "!" else " ")%char,
     (if g then "!" else " ")%char,
     (if f then "*" else " ")%char).
Proof. intros g f. rewrite try_update_status_sum. apply table_marks_status. Qed.

End IncumbentExtClaims.

(* ------------------------------------------------------------------ *)
(** ** Further properties of the outer loop of [solver::solve] *)

Module SolverLoopExtFacts.
Import SolverLoop SolverLoopExt.

Lemma int32_of_uint64 z :
  Int32.INT_MIN <= z <= Int32.INT_MAX -> Int32.wrap (UInt64.wrap z) = z.
Proof.
  intros Hz. unfold Int32.INT_MIN, Int32.INT_MAX in Hz. unfold Int32.wrap, UInt64.wrap.
  rewrite <- Z.add_mod_idemp_l by lia.
  rewrite (Z.mod_mod_divide z (2 ^ 64) (2 ^ 32)) by (exists (2 ^ 32); reflexivity).
  rewrite Z.add_mod_idemp_l by lia.
  rewrite Z.mod_small by lia. lia.
Qed.

Lemma Qfloor_nonneg q : (0 <= q)%Q -> 0 <= Qfloor q.
Proof. intros H. rewrite <- (Qfloor_Z 0). apply Qfloor_resp_le. exact H. Qed.

Lemma Qfloor_le_Z q z : (q <= inject_Z z)%Q -> Qfloor q <= z.
Proof. intros H. rewrite <- (Qfloor_Z z). apply Qfloor_resp_le. exact H. Qed.

Lemma trunc_nonneg q : (0 <= q)%Q -> trunc q = Qfloor q.
Proof. intros H. unfold trunc. rewrite (proj2 (Qle_bool_iff 0 q) H). done. Qed.

(** [rate * z] for a rate in [0, 1] and [z >= 0] lies in [0, z]. *)
Lemma rate_scale (rate : Q) (z : Z) :
  (0 <= rate <= 1)%Q -> 0 <= z -> (0 <= rate * inject_Z z <= inject_Z z)%Q.
Proof.
  intros [H0 H1] Hz. assert (Hz' : (0 <= inject_Z z)%Q) by (change 0%Q with (inject_Z 0); rewrite <- Zle_Qle; done).
  split; [apply Qmult_le_0_compat; done|].
  rewrite <- (Qmult_1_l (inject_Z z)) at 2. apply Qmult_le_compat_r; done.
Qed.

Lemma nominal_bounds fixed tenure :
  (0 <= fixed <= 1)%Q -> 0 <= tenure ->
  0 <= nominal_number_of_initial_modification fixed tenure <= tenure.
Proof.
  intros Hf Ht. unfold nominal_number_of_initial_modification.
  destruct (rate_scale fixed tenure Hf Ht) as [H0 H1].
  split; [apply Qfloor_nonneg | apply Qfloor_le_Z]; done.
Qed.

Lemma width_bounds rate nominal :
  (0 <= rate <= 1)%Q -> 0 <= nominal ->
  0 <= initial_modification_random_width rate nominal <= nominal.
Proof.
  intros Hr Hn. unfold initial_modification_random_width.
  destruct (rate_scale rate nominal Hr Hn) as [H0 H1].
  rewrite trunc_nonneg by done.
  split; [apply Qfloor_nonneg | apply Qfloor_le_Z]; done.
Qed.

Lemma Qltb_false a b : Qltb a b = false -> (b <= a)%Q.
Proof. unfold Qltb. rewrite negb_false_iff. apply Qle_bool_iff. Qed.

Lemma Qltb_intro a b : (a < b)%Q -> Qltb a b = true.
Proof.
  intros H. unfold Qltb. apply negb_true_iff, not_true_iff_false.
  rewrite Qle_bool_iff. apply Qlt_not_le. done.
Qed.

Lemma Qltb_irrefl_eq a b : (a == b)%Q -> Qltb a b = false.
Proof.
  intros H. unfold Qltb. apply negb_false_iff, Qle_bool_iff. rewrite H. apply Qle_refl.
Qed.

End SolverLoopExtFacts.

Module SolverLoopExtClaims.
Import SolverLoop SolverLoopExt SolverLoopExtFacts.



(** [next_number_of_initial_modification] is 0 after a loop that
    updated the feasible or the global augmented incumbent; otherwise,
    with the initial modification enabled and the option not changed, it
    is [max(1, nominal + d)] where [nominal = floor(fixed_rate *
    tenure)], the random width is [w = (int)(randomize_rate * nominal)]
    and the drawn offset [d] lies in [[-w, w)] ([d = 0] when [w = 0]);
    in the remaining case it is unchanged.  Rates lie in [0, 1], the
    tenure is non-negative and twice the tenure fits in an [int]. *)
Theorem update_number_of_initial_modification_spec (total_update_status : Z)
    (enabled is_changed : bool) (fixed_rate randomize_rate : Q) (tenure r current : Z) :
  (0 <= fixed_rate <= 1)%Q -> (0 <= randomize_rate <= 1)%Q ->
  0 <= tenure -> 2 * tenure <= Int32.INT_MAX ->
  let nominal := nominal_number_of_initial_modification fixed_rate tenure in
  let width := initial_modification_random_width randomize_rate nominal in
  let n := update_number_of_initial_modification total_update_status enabled is_changed
             fixed_rate randomize_rate tenure r current in
  (Z.land total_update_status STATUS_FEASIBLE_INCUMBENT_UPDATE <> 0 \/
   Z.land total_update_status STATUS_GLOBAL_AUGMENTED_INCUMBENT_UPDATE <> 0 -> n = 0) /\
  (Z.land total_update_status STATUS_FEASIBLE_INCUMBENT_UPDATE = 0 ->
   Z.land total_update_status STATUS_GLOBAL_AUGMENTED_INCUMBENT_UPDATE = 0 ->
   (enabled && negb is_changed = false -> n = current) /\
   (enabled && negb is_changed = true ->
      exists d, n = Z.max 1 (nominal + d) /\
                (if 0 <? width then - width <= d < width else d = 0) /\
                0 <= width <= nominal /\ nominal <= tenure)).
Proof.
  intros Hf Hr Ht Ht2 nominal width n. subst n.
  unfold update_number_of_initial_modification. fold nominal. fold width.
  split.
  - intros [H|H].
    + rewrite (proj2 (Z.eqb_neq _ _) H). done.
    + destruct (_ =? 0); [|done]. rewrite (proj2 (Z.eqb_neq _ _) H). done.
  - intros H4 H2. rewrite H4, H2. simpl.
    split; [intros ->; done|]. intros ->.
    destruct (nominal_bounds fixed_rate tenure Hf Ht) as [N0 N1]. fold nominal in N0, N1.
    destruct (width_bounds randomize_rate nominal Hr N0) as [W0 W1]. fold width in W0, W1.
    destruct (Z.ltb_spec 0 width) as [Hw|Hw].
    + exists (r mod (2 * width) - width).
      pose proof (Z.mod_pos_bound r (2 * width) ltac:(lia)).
      unfold Int32.INT_MAX in Ht2.
      assert (E1 : UInt64.wrap (2 * width) = 2 * width) by (apply Z.mod_small; lia).
      assert (E2 : UInt64.wrap width = width) by (apply Z.mod_small; lia).
      assert (E3 : UInt64.wrap nominal = nominal) by (apply Z.mod_small; lia).
      assert (E4 : forall y, UInt64.wrap (nominal + UInt64.wrap y) = UInt64.wrap (nominal + y))
        by (intros y; unfold UInt64.wrap; apply Z.add_mod_idemp_r; lia).
      rewrite E1, E2, E3, E4.
      rewrite int32_of_uint64 by (unfold Int32.INT_MIN, Int32.INT_MAX; lia).
      split; [done | split; lia].
    + exists 0. split; [f_equal; lia | split; lia].
Qed.

Lemma update_number_of_initial_modification_spec_witness :
  exists d,
    update_number_of_initial_modification 0 true false (1 # 2) (1 # 2) 20 12345 7 =
      Z.max 1 (nominal_number_of_initial_modification (1 # 2) 20 + d) /\
    - 5 <= d < 5.
Proof.
  destruct (update_number_of_initial_modification_spec 0 true false (1 # 2) (1 # 2) 20 12345 7
              ltac:(split; discriminate) ltac:(split; discriminate) ltac:(lia)
              ltac:(unfold Int32.INT_MAX; lia)) as [_ H].
  destruct (proj2 (H eq_refl eq_refl) eq_refl) as [d [E [B _]]].
  exists d. split; [exact E|]. vm_compute in B. exact B.
Defined.



(** The adjustment of the target objective at the start of [solve]:
    the default target is never multiplied by [model->sign()] and is
    replaced by 0 when the model has no objective; a target whose
    relative change from the default exceeds [EPSILON] is multiplied by
    the sign; a relative change of exactly [EPSILON] leaves the target
    as given. *)
Theorem adjust_target_objective_spec (DEFAULT EPSILON sign : Q) (is_defined : bool) (target : Q) :
  ~ (DEFAULT == 0)%Q -> (0 < EPSILON)%Q ->
  adjust_target_objective DEFAULT EPSILON sign is_defined DEFAULT =
    (if is_defined then DEFAULT else 0%Q) /\
  ((EPSILON < Qabs (target / DEFAULT - 1))%Q ->
     adjust_target_objective DEFAULT EPSILON sign is_defined target = (target * sign)%Q) /\
  ((Qabs (target / DEFAULT - 1) == EPSILON)%Q ->
     adjust_target_objective DEFAULT EPSILON sign is_defined target = target).
Proof.
  intros HD HE. unfold adjust_target_objective. split; [|split].
  - assert (H0 : (Qabs (DEFAULT / DEFAULT - 1) == 0)%Q).
    { unfold Qdiv. rewrite Qmult_inv_r by done. reflexivity. }
    assert (Hf : Qltb EPSILON (Qabs (DEFAULT / DEFAULT - 1)) = false).
    { unfold Qltb. apply negb_false_iff, Qle_bool_iff. rewrite H0. apply Qlt_le_weak. done. }
    assert (Ht : Qltb (Qabs (DEFAULT / DEFAULT - 1)) EPSILON = true).
    { apply Qltb_intro. rewrite H0. done. }
    rewrite Hf, Ht. destruct is_defined; done.
  - intros H. rewrite (Qltb_intro _ _ H).
    assert (Hn : Qltb (Qabs (target / DEFAULT - 1)) EPSILON = false).
    { unfold Qltb. apply negb_false_iff, Qle_bool_iff. apply Qlt_le_weak. done. }
    rewrite Hn. done.
  - intros H. rewrite (Qltb_irrefl_eq _ _ (Qeq_sym _ _ H)), (Qltb_irrefl_eq _ _ H). done.
Qed.

Lemma adjust_target_objective_spec_witness :
  adjust_target_objective (-100) (1 # 1000) (-1) false (-100) = 0%Q /\
  ((1 # 1000 < Qabs (5 / -100 - 1))%Q ->
     adjust_target_objective (-100) (1 # 1000) (-1) false 5 = (5 * -1)%Q) /\
  ((Qabs (5 / -100 - 1) == 1 # 1000)%Q ->
     adjust_target_objective (-100) (1 # 1000) (-1) false 5 = 5%Q).
Proof. apply (adjust_target_objective_spec (-100) (1 # 1000) (-1) false 5); [intro H; compute in H; discriminate H | reflexivity]. Defined.

End SolverLoopExtClaims.

(* ------------------------------------------------------------------ *)
(** ** Range and shape of the local penalty coefficients *)

Module PenaltyExtFacts.
Import SolverLoop PenaltyClaims.

Definition in_range (init : Q) (x : Q) : Prop := (0 <= x /\ x <= init)%Q.

Lemma Qsum_nonneg (l : list Q) : Forall (fun x => 0 <= x)%Q l -> (0 <= Qsum l)%Q.
Proof. induction 1; simpl; lra. Qed.

Lemma Qsum_squares_nonneg (l : list Q) : (0 <= Qsum (map (fun e => e * e)%Q l))%Q.
Proof.
  induction l as [|e l IH]; simpl; [lra|].
  assert (Hs : (0 <= e * e)%Q).
  { destruct (Qlt_le_dec e 0) as [Hn | Hn].
    - assert (E : (e * e == (- e) * (- e))%Q) by ring. rewrite E.
      apply Qmult_le_0_compat; lra.
    - apply Qmult_le_0_compat; lra. } lra.
Qed.

Lemma Qdiv_nonneg (a b : Q) : (0 <= a)%Q -> (0 <= b)%Q -> (0 <= a / b)%Q.
Proof. intros Ha Hb. apply Qmult_le_0_compat; [done | by apply Qinv_le_0_compat]. Qed.

Lemma Qmax_0_nonneg (g : Q) : (0 <= Qmax 0 g)%Q.
Proof. apply Q.le_max_l. Qed.

Lemma nth_nonneg (l : list Q) f : Forall (fun x => 0 <= x)%Q l -> (0 <= nth f l 0)%Q.
Proof.
  intros H. revert f. induction H as [|x l Hx _ IH]; intros [|f]; simpl; auto; lra.
Qed.

Lemma nth_row_nonneg (rows : list (list Q)) id :
  Forall (Forall (fun x => 0 <= x)%Q) rows -> Forall (fun x => 0 <= x)%Q (nth id rows []).
Proof.
  intros H. revert id. induction H as [|r rows Hr _ IH]; intros [|id]; simpl; auto.
Qed.

Lemma forall_imap {A B} (f : nat -> A -> B) (P : A -> Prop) (Q' : B -> Prop) (l : list A) :
  (forall i x, l !! i = Some x -> P x -> Q' (f i x)) ->
  Forall P l -> Forall Q' (imap f l).
Proof.
  intros Hf Hl. apply Forall_lookup. intros i y Hy.
  rewrite list_lookup_imap in Hy.
  destruct (l !! i) as [x|] eqn:Ex; simpl in Hy; [|discriminate].
  injection Hy as <-. apply Hf; [done|]. eapply Forall_lookup_1; eauto.
Qed.

Lemma forall2_imap_length {A B} (f : nat -> list A -> list B) (l : list (list A)) :
  (forall i x, length (f i x) = length x) ->
  Forall2 (fun r r' => length r = length r') l (imap f l).
Proof.
  intros Hf. apply Forall2_lookup. intros i.
  rewrite list_lookup_imap. destruct (l !! i) as [x|]; simpl; constructor. by rewrite Hf.
Qed.

Lemma tighten_proxy_length um mo gap tp tsq vv (proxy : list Q) :
  length (tighten_proxy um mo gap tp tsq vv proxy) = length proxy.
Proof.
  unfold tighten_proxy. rewrite length_map.
  destruct (is_enabled_grouping_penalty_coefficient mo); rewrite ?length_map; apply length_imap.
Qed.

Lemma relax_proxy_length mo EPSILON vv (proxy : list Q) :
  length (relax_proxy mo EPSILON vv proxy) = length proxy.
Proof. apply length_imap. Qed.

Section Range.
Variable utility_max : list Q -> Q.
Variable master_option : PenaltyOption.
Variable EPSILON : Q.
Let init := initial_penalty_coefficient master_option.
Hypothesis Hinit : (0 <= init)%Q.
Hypothesis Hrate : (0 <= penalty_coefficient_tightening_rate master_option)%Q.
Hypothesis Hbal : (0 <= penalty_coefficient_updating_balance master_option <= 1)%Q.
Hypothesis Hrelax : (0 <= penalty_coefficient_relaxing_rate master_option <= 1)%Q.
Hypothesis Hmax : forall l, Forall (fun x => 0 <= x)%Q l -> (0 <= utility_max l)%Q.

Lemma tighten_proxy_range gap tp tsq vv proxy :
  (0 <= tp)%Q -> (0 <= tsq)%Q -> Forall (fun x => 0 <= x)%Q vv ->
  Forall (in_range init) proxy ->
  Forall (in_range init) (tighten_proxy utility_max master_option gap tp tsq vv proxy) /\
  length (tighten_proxy utility_max master_option gap tp tsq vv proxy) = length proxy.
Proof.
  intros Htp Htsq Hvv Hp. unfold tighten_proxy.
  set (raised := imap _ proxy).
  assert (Hr : Forall (fun x => 0 <= x)%Q raised).
  { apply (forall_imap _ (in_range init)); [|done].
    intros i x _ [Hx _].
    pose proof (Qdiv_nonneg _ _ (Qmax_0_nonneg gap) Htp) as Hc.
    pose proof (Qmult_le_0_compat _ _ (Qdiv_nonneg _ _ (Qmax_0_nonneg gap) Htsq)
                  (nth_nonneg vv i Hvv)) as Hq.
    set (b := penalty_coefficient_updating_balance master_option) in *.
    assert (0 <= b * (Qmax 0 gap / tp))%Q by (apply Qmult_le_0_compat; lra).
    assert (0 <= (1 - b) * (Qmax 0 gap / tsq * nth i vv 0))%Q by (apply Qmult_le_0_compat; lra).
    assert (0 <= penalty_coefficient_tightening_rate master_option *
                 (b * (Qmax 0 gap / tp) + (1 - b) * (Qmax 0 gap / tsq * nth i vv 0)))%Q
      by (apply Qmult_le_0_compat; lra).
    lra. }
  assert (Hg : Forall (fun x => 0 <= x)%Q
                 (if is_enabled_grouping_penalty_coefficient master_option
                  then map (fun _ => utility_max raised) raised else raised)).
  { destruct (is_enabled_grouping_penalty_coefficient master_option); [|done].
    apply Forall_fmap, Forall_forall. intros y _. simpl. by apply Hmax. }
  split.
  - apply Forall_fmap. eapply Forall_impl; [exact Hg|]. intros x Hx. simpl. split.
    + apply Q.min_glb; done.
    + apply Q.le_min_r.
  - rewrite length_map. unfold raised.
    destruct (is_enabled_grouping_penalty_coefficient master_option);
      rewrite ?length_map; apply length_imap.
Qed.

Lemma relax_proxy_range vv proxy :
  Forall (in_range init) proxy ->
  Forall (in_range init) (relax_proxy master_option EPSILON vv proxy) /\
  length (relax_proxy master_option EPSILON vv proxy) = length proxy.
Proof.
  intros Hp. split; [|apply length_imap].
  apply (forall_imap _ (in_range init)); [|done].
  intros i x _ [H0 H1]. destruct (Qltb _ _); [|by split].
  set (r := penalty_coefficient_relaxing_rate master_option) in *.
  split.
  - apply Qmult_le_0_compat; lra.
  - apply Qle_trans with (x * 1)%Q; [rewrite (Qmult_comm x r), (Qmult_comm x 1); apply Qmult_le_compat_r; lra| lra].
Qed.

End Range.

End PenaltyExtFacts.

Module PenaltyExtClaims.
Import SolverLoop PenaltyClaims PenaltyExtFacts.

(** The local penalty coefficients stay in [[0, initial_penalty_coefficient]]
    from loop to loop: when the initial coefficient, the tightening rate
    are nonnegative, the balance and the relaxing rate lie in [[0, 1]],
    [utility::max] of nonnegative values is nonnegative and all
    violations are nonnegative, an update of coefficients in that range
    (with a global copy in that range for the reset) leaves them in it;
    without a reset the update keeps the number of proxies and the
    number of coefficients of each. *)
Theorem update_local_penalty_coefficients_range (utility_max : list Q -> Q)
    (master_option : PenaltyOption) (EPSILON : Q) (reset : bool) (gap : Q)
    (local_is_feasible : bool) (violations local global : list (list Q)) :
  let init := initial_penalty_coefficient master_option in
  (0 <= init)%Q ->
  (0 <= penalty_coefficient_tightening_rate master_option)%Q ->
  (0 <= penalty_coefficient_updating_balance master_option <= 1)%Q ->
  (0 <= penalty_coefficient_relaxing_rate master_option <= 1)%Q ->
  (forall l, Forall (fun x => 0 <= x)%Q l -> (0 <= utility_max l)%Q) ->
  Forall (Forall (fun x => 0 <= x)%Q) violations ->
  Forall (Forall (fun x => 0 <= x <= init)%Q) local ->
  Forall (Forall (fun x => 0 <= x <= init)%Q) global ->
  let new := update_local_penalty_coefficients utility_max master_option EPSILON
               reset gap local_is_feasible violations local global in
  Forall (Forall (fun x => 0 <= x <= init)%Q) new /\
  (reset = false -> Forall2 (fun r r' => length r = length r') local new).
Proof.
  intros init Hi Hr Hb Hx Hm Hv Hl Hg new. unfold new, update_local_penalty_coefficients.
  destruct reset; [split; [done | discriminate]|].
  destruct (violation_totals_rows violations 0%Q 0%Q) as [T1 T2].
  fold (violation_totals violations) in T1, T2.
  destruct (Qltb EPSILON gap && negb local_is_feasible).
  - destruct (violation_totals violations) as [tp tsq]. simpl in T1, T2.
    assert (Htp : (0 <= tp)%Q).
    { rewrite T1. pose proof (Qsum_nonneg (concat violations)
                                (proj2 (Forall_concat _ _) Hv)). lra. }
    assert (Htsq : (0 <= tsq)%Q).
    { rewrite T2. pose proof (Qsum_squares_nonneg (concat violations)). lra. }
    split.
    + apply (forall_imap _ (Forall (in_range init))); [|done].
      intros i x _ Hx'. apply (tighten_proxy_range utility_max master_option); auto.
      apply nth_row_nonneg. done.
    + intros _. apply forall2_imap_length. intros i x. apply tighten_proxy_length.
  - split.
    + apply (forall_imap _ (Forall (in_range init))); [|done].
      intros i x _ Hx'. apply (relax_proxy_range master_option); auto.
    + intros _. apply forall2_imap_length. intros i x. apply relax_proxy_length.
Qed.

Lemma update_local_penalty_coefficients_range_witness :
  Forall (Forall (fun x => 0 <= x <= 1)%Q)
    (update_local_penalty_coefficients (fun _ => 0%Q) sample_option 0 false 1 false
       [[1%Q; 0%Q]] [[1 # 2; 1%Q]] [[1%Q; 1%Q]]) /\
  (false = false -> Forall2 (fun r r' => length r = length r') [[1 # 2; 1%Q]]
     (update_local_penalty_coefficients (fun _ => 0%Q) sample_option 0 false 1 false
        [[1%Q; 0%Q]] [[1 # 2; 1%Q]] [[1%Q; 1%Q]])).
Proof.
  apply (update_local_penalty_coefficients_range (fun _ => 0%Q) sample_option 0 false 1 false
           [[1%Q; 0%Q]] [[1 # 2; 1%Q]] [[1%Q; 1%Q]]);
    simpl; try (intros; lra);
    repeat constructor; compute; discriminate.
Defined.

End PenaltyExtClaims.

(* ------------------------------------------------------------------ *)
(** ** Named export of the final values *)

Module NameValuesFacts.
Import SolverLoopExt.

Lemma name_values_S {A} (n : nat) (names : list string) (values : list A) :
  (n < length names)%nat -> (n < length values)%nat ->
  exists kn v, names !! n = Some kn /\ values !! n = Some v /\
    name_values (S n) names values = <[kn := v]> (name_values n names values).
Proof.
  intros Hn Hv.
  destruct (lookup_lt_is_Some_2 names n Hn) as [kn Ekn].
  destruct (lookup_lt_is_Some_2 values n Hv) as [v Ev].
  exists kn, v. split; [done | split; [done|]].
  unfold name_values. rewrite seq_S, fold_left_app. simpl. by rewrite Ekn, Ev.
Qed.

Lemma last_index_Some k names : forall n j,
  last_index k names n = Some j -> (j < n)%nat /\ names !! j = Some k.
Proof.
  induction n as [|n IH]; intros j H; simpl in H; [discriminate|].
  case_bool_decide as Hb.
  - injection H as <-. split; [lia | done].
  - destruct (IH j H). split; [lia | done].
Qed.

Lemma last_index_complete k names : forall n i,
  (i < n)%nat -> names !! i = Some k -> exists j, last_index k names n = Some j.
Proof.
  induction n as [|n IH]; intros i Hi Hk; simpl; [lia|].
  case_bool_decide as Hb; [by exists n|].
  destruct (decide (i = n)) as [->|Hne]; [done|]. apply (IH i); [lia | done].
Qed.

Lemma name_values_lookup_gen {A} (names : list string) (values : list A) k : forall size,
  (size <= length names)%nat -> (size <= length values)%nat ->
  name_values size names values !! k = last_index k names size ≫= fun j => values !! j.
Proof.
  induction size as [|n IH]; intros Hn Hv.
  - unfold name_values. simpl. by rewrite lookup_empty.
  - destruct (name_values_S n names values ltac:(lia) ltac:(lia)) as [kn [v [Ekn [Ev ->]]]].
    simpl. rewrite Ekn. destruct (decide (kn = k)) as [->|Hne].
    + rewrite bool_decide_true by done. simpl. by rewrite lookup_insert_eq.
    + rewrite bool_decide_false by congruence. rewrite lookup_insert_ne by done.
      apply IH; lia.
Qed.

End NameValuesFacts.

Module NameValuesClaims.
Import SolverLoopExt NameValuesFacts.

(** The exported map [named[names[i]] = values[i]] for [i < size]
    (both vectors of at least [size] entries): a name holds the value of
    its last position below [size], a name that does not occur there is
    missing; when the first [size] names are distinct, the name at
    position [i] holds [values[i]]. *)
Theorem name_values_lookup {A} (size : nat) (names : list string) (values : list A) (k : string) :
  (size <= length names)%nat -> (size <= length values)%nat ->
  name_values size names values !! k = last_index k names size ≫= (fun j => values !! j) /\
  (NoDup (take size names) -> forall i, (i < size)%nat -> names !! i = Some k ->
     name_values size names values !! k = values !! i).
Proof.
  intros Hn Hv. pose proof (name_values_lookup_gen names values k size Hn Hv) as E.
  split; [exact E|]. intros Hd i Hi Hk. rewrite E.
  destruct (last_index_complete k names size i Hi Hk) as [j Ej].
  destruct (last_index_Some k names size j Ej) as [Hj Hjk].
  rewrite Ej. simpl. f_equal.
  apply (NoDup_lookup (take size names) j i k Hd).
  - by rewrite lookup_take_lt.
  - by rewrite lookup_take_lt.
Qed.

Lemma name_values_lookup_witness :
  name_values 3 ["x"; "y"; "x"] [1; 2; 3] !! "x" =
    last_index "x" ["x"; "y"; "x"] 3 ≫= (fun j => [1; 2; 3] !! j) /\
  (NoDup (take 3 ["x"; "y"; "x"]) -> forall i, (i < 3)%nat -> ["x"; "y"; "x"] !! i = Some "x" ->
     name_values 3 ["x"; "y"; "x"] [1; 2; 3] !! "x" = [1; 2; 3] !! i).
Proof. apply (name_values_lookup 3 ["x"; "y"; "x"] [1; 2; 3] "x"); simpl; lia. Defined.

End NameValuesClaims.

(* ------------------------------------------------------------------ *)
(** ** Argument parsing of the QAP solver *)

Module QapMainFacts.
Import QapMain.

Lemma parse_arguments_drop fuel : forall args i q o,
  (length args - i <= fuel)%nat ->
  parse_arguments fuel args i q o = parse_list (drop i args) q o.
Proof.
  induction fuel as [|fuel IH]; intros args i q o Hf.
  - simpl. by rewrite drop_ge by lia.
  - simpl. destruct (Nat.ltb_spec i (length args)) as [Hi|Hi].
    + destruct (lookup_lt_is_Some_2 args i Hi) as [a Ea]. rewrite Ea.
      rewrite (drop_S args a i Ea). simpl.
      destruct (String.eqb a "-p").
      * destruct (args !! (i + 1)%nat) as [x|] eqn:Ex.
        -- rewrite (drop_S args x (S i)) by (by rewrite <- Nat.add_1_r).
           rewrite IH by lia. do 2 f_equal. lia.
        -- rewrite drop_ge; [done|]. apply lookup_ge_None_1 in Ex. lia.
      * apply IH. lia.
    + by rewrite drop_ge by lia.
Qed.

Lemma parse_list_app_gen n : forall l1 l2 q o q' o',
  (length l1 <= n)%nat -> parse_list l1 q o = Some (q', o') ->
  parse_list (l1 ++ l2) q o = parse_list l2 q' o'.
Proof.
  induction n as [|n IH]; intros l1 l2 q o q' o' Hl H.
  - destruct l1; [|simpl in Hl; lia]. simpl in H. by injection H as -> ->.
  - destruct l1 as [|a l1]; [simpl in H; by injection H as -> ->|].
    simpl in H, Hl |- *. destruct (String.eqb a "-p").
    + destruct l1 as [|x l1]; [discriminate|]. simpl. apply IH; [simpl in Hl; lia | done].
    + apply IH; [lia | done].
Qed.

Lemma parse_list_none_gen n : forall l q o,
  (length l <= n)%nat -> parse_list l q o = None ->
  exists l1, l = l1 ++ ["-p"] /\ is_Some (parse_list l1 q o).
Proof.
  induction n as [|n IH]; intros l q o Hl H.
  - destruct l; [discriminate | simpl in Hl; lia].
  - destruct l as [|a l]; [discriminate|]. simpl in H, Hl.
    destruct (String.eqb a "-p") eqn:Ea.
    + apply String.eqb_eq in Ea as ->.
      destruct l as [|x l].
      * exists []. split; [done | by eexists].
      * destruct (IH l q x ltac:(simpl in Hl; lia) H) as [l1 [-> Hs]].
        exists ("-p" :: x :: l1). split; [done|]. done.
    + destruct (IH l a o ltac:(lia) H) as [l1 [-> Hs]].
      exists (a :: l1). split; [done|]. simpl. by rewrite Ea.
Qed.

End QapMainFacts.

Module QapMainClaims.
Import QapMain QapMainFacts.

(** [main] shows the usage exactly when no argument follows the program
    name; otherwise the parsing loop from [i = 1] is the loop over the
    remaining arguments, starting from two empty file names, and an
    [args[i + 1]] read past the end gives [OutOfRange]. *)
Theorem main_arguments_parse_list (args : list string) :
  main_arguments args =
    match args with
    | [] | [_] => Usage
    | _ :: rest =>
        match parse_list rest EmptyString EmptyString with
        | Some (q, o) => Run q o
        | None => OutOfRange
        end
    end.
Proof.
  unfold main_arguments. destruct args as [|p [|a rest]]; [done | done|].
  simpl (_ !! 1%nat). cbv iota.
  rewrite parse_arguments_drop by lia. done.
Qed.

(** The loop reads the arguments left to right: once a prefix has been
    read without running past the end, the rest is read from the file
    names that prefix left. *)
Theorem parse_list_app (l1 l2 : list string) (q o q' o' : string) :
  parse_list l1 q o = Some (q', o') ->
  parse_list (l1 ++ l2) q o = parse_list l2 q' o'.
Proof. apply (parse_list_app_gen (length l1)). lia. Qed.

Lemma parse_list_app_witness :
  parse_list (["a.dat"] ++ ["-p"; "opt.json"]) EmptyString EmptyString =
    parse_list ["-p"; "opt.json"] "a.dat" EmptyString.
Proof. apply (parse_list_app ["a.dat"] _ EmptyString EmptyString "a.dat" EmptyString). reflexivity. Defined.

(** The loop reads past the end of the arguments exactly when they end
    in a ["-p"] that is read as the option flag: the arguments before
    it are read without running past the end. *)
Theorem parse_list_out_of_range (l : list string) (q o : string) :
  parse_list l q o = None <-> exists l1, l = l1 ++ ["-p"] /\ is_Some (parse_list l1 q o).
Proof.
  split.
  - apply (parse_list_none_gen (length l)). lia.
  - intros [l1 [-> [[q' o'] Hs]]]. rewrite (parse_list_app_gen (length l1) l1 _ q o q' o');
      [done | lia | done].
Qed.

Lemma parse_list_out_of_range_witness :
  parse_list ["a.dat"; "-p"] EmptyString EmptyString = None.
Proof.
  apply (proj2 (parse_list_out_of_range ["a.dat"; "-p"] EmptyString EmptyString)).
  exists ["a.dat"]. split; [reflexivity | eexists; reflexivity].
Defined.

End QapMainClaims.
